(** * certloader.Watcher: the event loop that reloads TLS files on change

    A shallow embedding of [pkg/crypto/certloader/watcher.go]: the [Watcher]
    built by [NewWatcher] and [FutureWatcher], the goroutine started by
    [Watch], and [Stop].

    Goroutines are modelled by interleaving: every [select] case of the loop
    is one atomic transition, taken only when the case is ready; what the
    disk answers to a reload is part of the case that triggers the reload.
    Channels that are only ever closed ([ready], [stop], the result channel)
    are [Open] or [Closed]; closing a closed channel panics, as in Go. *)

From stdpp Require Import base gmap strings list.

Open Scope string_scope.

(** ** Go runtime pieces *)

Inductive chan := Open | Closed.

(** [close(c)]: [None] is the runtime panic on a closed channel. *)
Definition close (c : chan) : option chan :=
  match c with
  | Open => Some Closed
  | Closed => None
  end.

(** A [time.Duration], in milliseconds. *)
Definition Duration := Z.

Definition watcherEventCoalesceWindow : Duration := 100%Z.

(** [time.After(d)]: a timer channel; the loop only ever holds [nil] or one
    such channel per role, so a timer is identified by its duration. *)
Definition time_After (d : Duration) : option Duration := Some d.

Inductive Role := RoleKeypair | RoleCA.

Inductive Level := Debug | Info | Warn.

(** What a goroutine does to the outside world, in order. *)
Inductive Effect :=
  | Log (lvl : Level) (msg : string) (detail : string)
  | TimeAfter (who : Role) (d : Duration)
  | Reload (who : Role)
  | CloseReady
  | CloseStop
  | FswClose
  | ResSend
  | ResClose.

(** One transition of a goroutine: the case is not ready, the goroutine
    panics, or it moves on and leaves effects behind. *)
Inductive Outcome (S : Type) :=
  | Blocked
  | Crash (msg : string)
  | Next (s : S) (out : list Effect).
Arguments Blocked {S}.
Arguments Crash {S} msg.
Arguments Next {S} s out.

Definition emit {S : Type} (pre : list Effect) (o : Outcome S) : Outcome S :=
  match o with
  | Next s out => Next s (pre ++ out)%list
  | other => other
  end.

Definition count (p : Effect → bool) (out : list Effect) : nat :=
  length (List.filter p out).

Definition isCloseReady (e : Effect) : bool :=
  match e with CloseReady => true | _ => false end.
Definition isCloseStop (e : Effect) : bool :=
  match e with CloseStop => true | _ => false end.
Definition isFswClose (e : Effect) : bool :=
  match e with FswClose => true | _ => false end.
Definition isResSend (e : Effect) : bool :=
  match e with ResSend => true | _ => false end.
Definition isResClose (e : Effect) : bool :=
  match e with ResClose => true | _ => false end.
Definition isTimeAfter (r : Role) (e : Effect) : bool :=
  match e, r with
  | TimeAfter RoleKeypair _, RoleKeypair => true
  | TimeAfter RoleCA _, RoleCA => true
  | _, _ => false
  end.
Definition isReload (r : Role) (e : Effect) : bool :=
  match e, r with
  | Reload RoleKeypair, RoleKeypair => true
  | Reload RoleCA, RoleCA => true
  | _, _ => false
  end.
Definition isWarn (e : Effect) : bool :=
  match e with Log Warn _ _ => true | _ => false end.

(** ** The credential store (FileReloader) *)

Record Keypair := { keypairSN : string }.
Record CertPool := { subjects : list string }.

(** What reading and parsing the files of one role gives at some moment. *)
Inductive Load (A : Type) :=
  | Loaded (a : A)
  | LoadFailed (err : string).
Arguments Loaded {A} a.
Arguments LoadFailed {A} err.

(** Modelled from the spec: the FileReloader struct (reloader.go is not among
    the sources). The three path fields are the ones [Watch] reads; the
    current keypair and CA pool are optional until their first successful
    load. *)
Record FileReloader := {
  caFiles : list string;
  certFile : string;
  privkeyFile : string;
  keypair : option Keypair;
  caCertPool : option CertPool
}.

Definition setKeypair (kp : Keypair) (r : FileReloader) : FileReloader :=
  {| caFiles := caFiles r; certFile := certFile r; privkeyFile := privkeyFile r;
     keypair := Some kp; caCertPool := caCertPool r |}.

Definition setCA (ca : CertPool) (r : FileReloader) : FileReloader :=
  {| caFiles := caFiles r; certFile := certFile r; privkeyFile := privkeyFile r;
     keypair := keypair r; caCertPool := Some ca |}.

(** Modelled from the spec: FileReloader.HasKeypair, the keypair role has at
    least one configured path. *)
Definition HasKeypair (r : FileReloader) : bool :=
  negb (certFile r =? "") || negb (privkeyFile r =? "").

(** Modelled from the spec: FileReloader.HasCustomCA, the CA role has at
    least one configured path. *)
Definition HasCustomCA (r : FileReloader) : bool :=
  match caFiles r with
  | [] => false
  | _ :: _ => true
  end.

Definition isLoaded {A : Type} (o : option A) : bool :=
  match o with
  | Some _ => true
  | None => false
  end.

(** Modelled from the spec: FileReloader.Ready, true iff every configured
    role has been loaded at least once; a role with zero configured paths
    counts as satisfied. *)
Definition Ready (r : FileReloader) : bool :=
  (negb (HasKeypair r) || isLoaded (keypair r))
  && (negb (HasCustomCA r) || isLoaded (caCertPool r)).

(** Modelled from the spec: FileReloader.ReloadKeypair re-reads and parses
    the certificate and key files ([disk] is what that gives); on success it
    replaces the stored keypair, on failure it leaves the previous value
    untouched and returns the error. *)
Definition ReloadKeypair (disk : Load Keypair) (r : FileReloader)
  : FileReloader * Load Keypair :=
  match disk with
  | Loaded kp => (setKeypair kp r, Loaded kp)
  | LoadFailed err => (r, LoadFailed err)
  end.

(** Modelled from the spec: FileReloader.ReloadCA, as [ReloadKeypair] for the
    CA pool. *)
Definition ReloadCA (disk : Load CertPool) (r : FileReloader)
  : FileReloader * Load CertPool :=
  match disk with
  | Loaded ca => (setCA ca r, Loaded ca)
  | LoadFailed err => (r, LoadFailed err)
  end.

(** Modelled from the spec: keypairId, the identity of a keypair that the
    loop logs after a successful reload. *)
Definition keypairId (kp : Keypair) : string := keypairSN kp.

(** What the environment answers while a Watcher is constructed: the
    verdict of the reloader constructor on the paths, of [fswatcher.New] on
    the files to track, and what the disk holds for each role. *)
Record Env := {
  reloaderErr : option string;
  fswatcherErr : option string;
  diskKeypair : Load Keypair;
  diskCA : Load CertPool
}.

(** Modelled from the spec: NewFileReloader builds a store with nothing
    loaded; when it rejects the paths is decided outside this file. *)
Definition NewFileReloader (env : Env) (caFiles : list string)
    (certFile privkeyFile : string) : FileReloader + string :=
  match reloaderErr env with
  | Some err => inr err
  | None => inl {| caFiles := caFiles; certFile := certFile;
                   privkeyFile := privkeyFile;
                   keypair := None; caCertPool := None |}
  end.

(** Modelled from the spec: NewFileReloaderReady, the eagerly-loading
    constructor: it builds the store and loads the keypair, then the CA
    pool, and fails when either load fails. *)
Definition NewFileReloaderReady (env : Env) (caFiles : list string)
    (certFile privkeyFile : string) : FileReloader + string :=
  match NewFileReloader env caFiles certFile privkeyFile with
  | inr err => inr err
  | inl r =>
      match ReloadKeypair (diskKeypair env) r with
      | (_, LoadFailed err) => inr err
      | (r1, Loaded _) =>
          match ReloadCA (diskCA env) r1 with
          | (_, LoadFailed err) => inr err
          | (r2, Loaded _) => inl r2
          end
      end
  end.

(** ** The file event source (fswatcher) *)

Inductive Op := Create | Write | Remove | Rename | Chmod.

(** Modelled from the spec: fswatcher.Watcher, the paths it tracks and
    whether [Close] has released it. *)
Record FsWatcher := {
  trackFiles : list string;
  released : bool
}.

(** Modelled from the spec: fswatcher.New, which fails when the event source
    cannot be created. *)
Definition fswatcher_New (env : Env) (files : list string) : FsWatcher + string :=
  match fswatcherErr env with
  | Some err => inr err
  | None => inl {| trackFiles := files; released := false |}
  end.

(** Go's [append(s, x)]. *)
Definition append {A : Type} (s : list A) (x : A) : list A := (s ++ [x])%list.

(** The files [newFsWatcher] asks to track: the non-empty ones, certificate
    first, then the key, then the CA files in order. *)
Definition trackedFiles (caFiles : list string) (certFile privkeyFile : string)
  : list string :=
  let trackFiles := [] in
  let trackFiles :=
    if negb (certFile =? "") then append trackFiles certFile else trackFiles in
  let trackFiles :=
    if negb (privkeyFile =? "") then append trackFiles privkeyFile else trackFiles in
  foldl (λ acc path, if negb (path =? "") then append acc path else acc)
        trackFiles caFiles.

Definition newFsWatcher (env : Env) (caFiles : list string)
    (certFile privkeyFile : string) : FsWatcher + string :=
  fswatcher_New env (trackedFiles caFiles certFile privkeyFile).

(** ** Watcher *)

(** The Watcher struct: the embedded store, the event source and the stop
    channel. Its logger has no field here: what it writes is an [Effect]. *)
Record Watcher := {
  reloader : FileReloader;
  fswatcher : FsWatcher;
  stop : chan
}.

Definition withReloader (r : FileReloader) (w : Watcher) : Watcher :=
  {| reloader := r; fswatcher := fswatcher w; stop := stop w |}.

Definition withStop (c : chan) (w : Watcher) : Watcher :=
  {| reloader := reloader w; fswatcher := fswatcher w; stop := c |}.

(** [w.fswatcher.Close()] *)
Definition closeFswatcher (w : Watcher) : Watcher :=
  {| reloader := reloader w;
     fswatcher := {| trackFiles := trackFiles (fswatcher w); released := true |};
     stop := stop w |}.

(** The goroutine started by [Watch] together with everything it closes
    over: the [sync.Once] and the [ready] channel, the two path maps, the two
    timer channels ([None] is the nil channel), and whether the goroutine is
    still in its loop. *)
Record Loop := {
  watcher : Watcher;
  once : bool;
  ready : chan;
  keypairMap : gset string;
  caMap : gset string;
  keypairReload : option Duration;
  caReload : option Duration;
  running : bool
}.

Definition withWatcher (w : Watcher) (l : Loop) : Loop :=
  {| watcher := w; once := once l; ready := ready l;
     keypairMap := keypairMap l; caMap := caMap l;
     keypairReload := keypairReload l; caReload := caReload l;
     running := running l |}.

Definition withKeypairReload (t : option Duration) (l : Loop) : Loop :=
  {| watcher := watcher l; once := once l; ready := ready l;
     keypairMap := keypairMap l; caMap := caMap l;
     keypairReload := t; caReload := caReload l;
     running := running l |}.

Definition withCaReload (t : option Duration) (l : Loop) : Loop :=
  {| watcher := watcher l; once := once l; ready := ready l;
     keypairMap := keypairMap l; caMap := caMap l;
     keypairReload := keypairReload l; caReload := t;
     running := running l |}.

Definition exitLoop (l : Loop) : Loop :=
  {| watcher := closeFswatcher (watcher l); once := once l; ready := ready l;
     keypairMap := keypairMap l; caMap := caMap l;
     keypairReload := keypairReload l; caReload := caReload l;
     running := false |}.

(** [markReady]: [once.Do(func() { close(ready) })]. *)
Definition markReady (l : Loop) : Outcome Loop :=
  if once l then Next l []
  else
    match close (ready l) with
    | Some c =>
        Next {| watcher := watcher l; once := true; ready := c;
                keypairMap := keypairMap l; caMap := caMap l;
                keypairReload := keypairReload l; caReload := caReload l;
                running := running l |} [CloseReady]
    | None => Crash "close of closed channel"
    end.

(** The cases of the loop's [select]. A timer case carries what the disk
    holds when the reload runs. *)
Inductive Case :=
  | FsEvent (path : string) (op : Op)
  | KeypairTimer (disk : Load Keypair)
  | CATimer (disk : Load CertPool)
  | FsError (err : string)
  | StopSeen.

(** The path maps built at the top of [Watch]. *)
Definition buildKeypairMap (r : FileReloader) : gset string :=
  let keypairMap : gset string := ∅ in
  let keypairMap :=
    if negb (certFile r =? "") then {[certFile r]} ∪ keypairMap else keypairMap in
  if negb (privkeyFile r =? "") then {[privkeyFile r]} ∪ keypairMap else keypairMap.

Definition buildCaMap (r : FileReloader) : gset string :=
  foldl (λ (caMap : gset string) path, {[path]} ∪ caMap) ∅ (caFiles r).

(** [Watch]: the state in which the goroutine enters its loop. *)
Definition Watch (w : Watcher) : Loop :=
  {| watcher := w; once := false; ready := Open;
     keypairMap := buildKeypairMap (reloader w);
     caMap := buildCaMap (reloader w);
     keypairReload := None; caReload := None;
     running := true |}.

(** One iteration of the [for { select { ... } }] loop, on the case [c]. *)
Definition iteration (l : Loop) (c : Case) : Outcome Loop :=
  if negb (running l) then Blocked
  else
    match c with
    | FsEvent path op =>
        let received := Log Debug "Received fswatcher event" path in
        let keypairUpdated := bool_decide (path ∈ keypairMap l) in
        let caUpdated := bool_decide (path ∈ caMap l) in
        if keypairUpdated then
          match keypairReload l with
          | None =>
              Next (withKeypairReload (time_After watcherEventCoalesceWindow) l)
                   [received; TimeAfter RoleKeypair watcherEventCoalesceWindow]
          | Some _ => Next l [received]
          end
        else if caUpdated then
          match caReload l with
          | None =>
              Next (withCaReload (time_After watcherEventCoalesceWindow) l)
                   [received; TimeAfter RoleCA watcherEventCoalesceWindow]
          | Some _ => Next l [received]
          end
        else Next l [received; Log Warn "Unknown file, ignoring." path]
    | KeypairTimer disk =>
        match keypairReload l with
        | None => Blocked
        | Some _ =>
            let l := withKeypairReload None l in
            match ReloadKeypair disk (reloader (watcher l)) with
            | (r, LoadFailed err) =>
                Next (withWatcher (withReloader r (watcher l)) l)
                     [Reload RoleKeypair; Log Warn "Keypair update failed" err]
            | (r, Loaded keypair) =>
                let l := withWatcher (withReloader r (watcher l)) l in
                let id := keypairId keypair in
                emit [Reload RoleKeypair; Log Info "Keypair updated" id]
                     (if Ready (reloader (watcher l)) then markReady l
                      else Next l [])
            end
        end
    | CATimer disk =>
        match caReload l with
        | None => Blocked
        | Some _ =>
            let l := withCaReload None l in
            match ReloadCA disk (reloader (watcher l)) with
            | (r, LoadFailed err) =>
                Next (withWatcher (withReloader r (watcher l)) l)
                     [Reload RoleCA;
                      Log Warn "Certificate authority update failed" err]
            | (r, Loaded _) =>
                let l := withWatcher (withReloader r (watcher l)) l in
                emit [Reload RoleCA; Log Info "Certificate authority updated" ""]
                     (if Ready (reloader (watcher l)) then markReady l
                      else Next l [])
            end
        end
    | FsError err => Next l [Log Warn "fswatcher error" err]
    | StopSeen =>
        match stop (watcher l) with
        | Open => Blocked
        | Closed => Next (exitLoop l) [Log Info "Stopping fswatcher" ""; FswClose]
        end
    end.

(** ** Stop *)

(** Where a goroutine that called [Stop] is: before the [select], in the
    [default] branch about to run [close(w.stop)], or returned. *)
Inductive StopPc := AtSelect | AtClose | Returned.

(** One atomic move of a goroutine inside [Stop]. *)
Definition stopStep (c : chan) (pc : StopPc) : Outcome (chan * StopPc) :=
  match pc with
  | AtSelect =>
      match c with
      | Closed => Next (c, Returned) []
      | Open => Next (c, AtClose) []
      end
  | AtClose =>
      match close c with
      | Some c' => Next (c', Returned) [CloseStop]
      | None => Crash "close of closed channel"
      end
  | Returned => Blocked
  end.

(** A whole call of [Stop] that no other goroutine interleaves with. *)
Definition Stop (w : Watcher) : Outcome Watcher :=
  match stop w with
  | Closed => Next w []
  | Open =>
      match close (stop w) with
      | Some c => Next (withStop c w) [CloseStop]
      | None => Crash "close of closed channel"
      end
  end.

(** Feeding a list of inputs to a transition function. *)
Fixpoint runWith {S I : Type} (step : S → I → Outcome S) (s : S) (inputs : list I)
  : Outcome S :=
  match inputs with
  | [] => Next s []
  | i :: rest =>
      match step s i with
      | Next s' out => emit out (runWith step s' rest)
      | other => other
      end
  end.

(** Several goroutines inside [Stop] at once, on the same channel: the
    goroutine [tid] makes its next move. *)
Definition stopSched (st : chan * list StopPc) (tid : nat)
  : Outcome (chan * list StopPc) :=
  match st.2 !! tid with
  | None => Blocked
  | Some pc =>
      match stopStep st.1 pc with
      | Next (c, pc') out => Next (c, <[tid := pc']> st.2) out
      | Crash msg => Crash msg
      | Blocked => Blocked
      end
  end.

(** ** The Watcher at work *)

(** What happens next to a Watcher: its loop takes a ready [select] case, or
    some goroutine calls [Stop]. *)
Inductive Step :=
  | Select (c : Case)
  | CallStop.

Definition step (l : Loop) (s : Step) : Outcome Loop :=
  match s with
  | Select c => iteration l c
  | CallStop =>
      match Stop (watcher l) with
      | Next w out => Next (withWatcher w l) out
      | Crash msg => Crash msg
      | Blocked => Blocked
      end
  end.

Definition run : Loop → list Step → Outcome Loop := runWith step.

(** ** Constructors *)

(** [NewWatcher]: on success the Watcher comes with its loop started. *)
Definition NewWatcher (env : Env) (caFiles : list string)
    (certFile privkeyFile : string) : Loop + string :=
  match NewFileReloaderReady env caFiles certFile privkeyFile with
  | inr err => inr err
  | inl r =>
      match newFsWatcher env caFiles certFile privkeyFile with
      | inr err => inr err
      | inl fswatcher =>
          let w := {| reloader := r; fswatcher := fswatcher; stop := Open |} in
          inl (Watch w)
      end
  end.

(** Where the goroutine of [FutureWatcher] is: blocked on [res <- w], in its
    [select] on [ready] and [w.stop], or returned (with [res] closed by the
    deferred call). *)
Inductive FuturePc := AtSend | AtWait | Finished.

Record Future := {
  loop : Loop;
  pc : FuturePc;
  res : chan
}.

Definition withLoop (l : Loop) (f : Future) : Future :=
  {| loop := l; pc := pc f; res := res f |}.

(** [FutureWatcher]: the goroutine up to its first blocking point. *)
Definition FutureWatcher (env : Env) (caFiles : list string)
    (certFile privkeyFile : string) : (Future * list Effect) + string :=
  match NewFileReloader env caFiles certFile privkeyFile with
  | inr err => inr err
  | inl r =>
      match newFsWatcher env caFiles certFile privkeyFile with
      | inr err => inr err
      | inl fswatcher =>
          let w := {| reloader := r; fswatcher := fswatcher; stop := Open |} in
          let '(r, keypairErr) := ReloadKeypair (diskKeypair env) (reloader w) in
          let w := withReloader r w in
          let '(r, caErr) := ReloadCA (diskCA env) (reloader w) in
          let w := withReloader r w in
          let l := Watch w in
          let reloads := [Reload RoleKeypair; Reload RoleCA] in
          match keypairErr, caErr with
          | Loaded _, Loaded _ =>
              inl ({| loop := l; pc := AtSend; res := Open |},
                   reloads ++ [Log Debug "TLS configuration ready" ""])%list
          | _, _ =>
              inl ({| loop := l; pc := AtWait; res := Open |},
                   reloads
                   ++ [Log Debug "Waiting on fsnotify update to be ready" ""])%list
          end
      end
  end.

(** The deferred [close(res)], after which the goroutine is gone. *)
Definition closeRes (f : Future) : Outcome Future :=
  match close (res f) with
  | Some c => Next {| loop := loop f; pc := Finished; res := c |} [ResClose]
  | None => Crash "close of closed channel"
  end.

(** What happens next around a FutureWatcher: the Watcher moves, the
    goroutine's [select] takes one of its two cases, or the caller receives
    from the result channel. *)
Inductive FutureStep :=
  | WatcherStep (s : Step)
  | SelectReady
  | SelectStop
  | Receive.

Definition futureStep (f : Future) (s : FutureStep) : Outcome Future :=
  match s with
  | WatcherStep st =>
      match step (loop f) st with
      | Next l out => Next (withLoop l f) out
      | Crash msg => Crash msg
      | Blocked => Blocked
      end
  | SelectReady =>
      match pc f, ready (loop f) with
      | AtWait, Closed =>
          Next {| loop := loop f; pc := AtSend; res := res f |}
               [Log Debug "TLS configuration ready" ""]
      | _, _ => Blocked
      end
  | SelectStop =>
      match pc f, stop (watcher (loop f)) with
      | AtWait, Closed => closeRes f
      | _, _ => Blocked
      end
  | Receive =>
      match pc f with
      | AtSend =>
          match res f with
          | Open => emit [ResSend] (closeRes f)
          | Closed => Crash "send on closed channel"
          end
      | _ => Blocked
      end
  end.

Definition runFuture : Future → list FutureStep → Outcome Future :=
  runWith futureStep.

(** * Vocabulary of the properties *)

(** The [sync.Once] has been used exactly when [ready] is closed. *)
Definition consistent (l : Loop) : Prop :=
  once l = match ready l with Closed => true | Open => false end.

(** The loop after [close(ready)]. *)
Definition signalled (l : Loop) : Loop :=
  {| watcher := watcher l; once := true; ready := Closed;
     keypairMap := keypairMap l; caMap := caMap l;
     keypairReload := keypairReload l; caReload := caReload l;
     running := running l |}.

(** How many times [ready] can have been closed: a channel is closed at most
    once. *)
Definition fired (l : Loop) : nat :=
  match ready l with
  | Closed => 1
  | Open => 0
  end.

(** The step is a keypair reload by the loop that succeeds. *)
Definition keypairSuccess (s : Step) : bool :=
  match s with
  | Select (KeypairTimer (Loaded _)) => true
  | _ => false
  end.

(** The step is a CA reload by the loop that succeeds. *)
Definition caSuccess (s : Step) : bool :=
  match s with
  | Select (CATimer (Loaded _)) => true
  | _ => false
  end.

(** A reload made by the loop that succeeded. *)
Definition reloadSuccess (s : Step) : bool := keypairSuccess s || caSuccess s.

(** The role has been reloaded with success by the loop somewhere in [tr]. *)
Definition keypairSucceeded (tr : list Step) : Prop :=
  ∃ kp, Select (KeypairTimer (Loaded kp)) ∈ tr.

(** As [keypairSucceeded], for the CA. *)
Definition caSucceeded (tr : list Step) : Prop :=
  ∃ ca, Select (CATimer (Loaded ca)) ∈ tr.

(** The store embedded in the Watcher of a loop. *)
Definition storeOf (l : Loop) : FileReloader := reloader (watcher l).

(** Two states of a store are configured with the same paths. *)
Definition samePaths (r r' : FileReloader) : Prop :=
  caFiles r' = caFiles r ∧ certFile r' = certFile r
  ∧ privkeyFile r' = privkeyFile r.

(** The debug line that every notification starts with. *)
Definition received (path : string) : Effect :=
  Log Debug "Received fswatcher event" path.

(** The timer channel of a role. *)
Definition timerOf (r : Role) (l : Loop) : option Duration :=
  match r with
  | RoleKeypair => keypairReload l
  | RoleCA => caReload l
  end.

(** The branch of the loop that a notification for [path] takes: the keypair
    branch when the path is in [keypairMap], the CA branch when it is in
    [caMap] only. *)
Definition handledAs (r : Role) (l : Loop) (path : string) : Prop :=
  match r with
  | RoleKeypair => path ∈ keypairMap l
  | RoleCA => (path ∉ keypairMap l) ∧ (path ∈ caMap l)
  end.

(** The [select] case in which the timer of a role fires. *)
Definition timerCase (r : Role) (c : Case) : Prop :=
  match r, c with
  | RoleKeypair, KeypairTimer _ => True
  | RoleCA, CATimer _ => True
  | _, _ => False
  end.

(** The loop takes the notification [e] from the event source. *)
Definition notify (e : string * Op) : Step := Select (FsEvent (e.1) (e.2)).

(** How many times the stop channel can have been closed. *)
Definition stoppedN (l : Loop) : nat :=
  match stop (watcher l) with
  | Closed => 1
  | Open => 0
  end.

(** How many times the loop can have returned. *)
Definition exitedN (l : Loop) : nat := if running l then 0 else 1.

(** The Watcher, with its loop, that one of the two constructors returns. *)
Definition builtBy (l : Loop) (env : Env) (ca : list string) (cert key : string)
  : Prop :=
  NewWatcher env ca cert key = inl l
  ∨ ∃ f eff, FutureWatcher env ca cert key = inl (f, eff) ∧ loop f = l.

(** Whether both eager reloads of [FutureWatcher] succeed. *)
Definition eagerOk (env : Env) : bool :=
  match diskKeypair env, diskCA env with
  | Loaded _, Loaded _ => true
  | _, _ => false
  end.

(** The result channel is closed exactly when the goroutine has returned. *)
Definition futureInv (f : Future) : Prop :=
  consistent (loop f)
  ∧ res f = match pc f with Finished => Closed | _ => Open end.

(** ** A sample configuration *)

(** A keypair and a CA pool as the disk may hold them. *)
Definition demoKeypair : Keypair := {| keypairSN := "4f:1a" |}.
Definition demoPool : CertPool := {| subjects := ["CN=cluster-ca"] |}.

(** Every file is in place. *)
Definition demoEnv : Env :=
  {| reloaderErr := None; fswatcherErr := None;
     diskKeypair := Loaded demoKeypair; diskCA := Loaded demoPool |}.

(** The keypair is in place, the CA bundle is not there yet. *)
Definition demoEnvNoCA : Env :=
  {| reloaderErr := None; fswatcherErr := None;
     diskKeypair := Loaded demoKeypair;
     diskCA := LoadFailed "open ca.crt: no such file or directory" |}.

(** One certificate, its key and one CA bundle, with the store loaded or
    not. *)
Definition demoFsWatcher : FsWatcher :=
  {| trackFiles := ["tls.crt"; "tls.key"; "ca.crt"]; released := false |}.

Definition demoStore (kp : option Keypair) (ca : option CertPool) : FileReloader :=
  {| caFiles := ["ca.crt"]; certFile := "tls.crt"; privkeyFile := "tls.key";
     keypair := kp; caCertPool := ca |}.

Definition demoWatcher (kp : option Keypair) (ca : option CertPool) : Watcher :=
  {| reloader := demoStore kp ca; fswatcher := demoFsWatcher; stop := Open |}.

(** Both files of the keypair are written, then the CA bundle appears, first
    incomplete, then the certificate is rotated. *)
Definition demoRotation : list Step :=
  [Select (FsEvent "tls.crt" Write); Select (FsEvent "tls.key" Write);
   Select (KeypairTimer (Loaded demoKeypair));
   Select (FsEvent "ca.crt" Create);
   Select (CATimer (LoadFailed "ca.crt: no certificate found"));
   Select (FsEvent "ca.crt" Write); Select (CATimer (Loaded demoPool));
   Select (FsEvent "tls.crt" Write);
   Select (KeypairTimer (Loaded demoKeypair))].

(** A ready Watcher with both timers armed. *)
Definition demoArmed : Loop :=
  withCaReload (time_After watcherEventCoalesceWindow)
    (withKeypairReload (time_After watcherEventCoalesceWindow)
       (Watch (demoWatcher (Some demoKeypair) (Some demoPool)))).

(** The certificate file is also listed as a CA file. *)
Definition demoShared : Watcher :=
  {| reloader := {| caFiles := ["tls.crt"]; certFile := "tls.crt";
                    privkeyFile := "tls.key";
                    keypair := None; caCertPool := None |};
     fswatcher := {| trackFiles := ["tls.crt"; "tls.key"; "tls.crt"];
                     released := false |};
     stop := Open |}.

(** ** Vocabulary of the further properties *)

(** The test that [newFsWatcher] and [Watch] make on a path. *)
Definition nonEmpty (p : string) : bool := negb (p =? "").

(** Whether the timer of a role is pending, as a number. *)
Definition armedN (r : Role) (l : Loop) : nat :=
  match timerOf r l with
  | Some _ => 1
  | None => 0
  end.

(** The step is a notification taken from the event source. *)
Definition isNotification (s : Step) : bool :=
  match s with
  | Select (FsEvent _ _) => true
  | _ => false
  end.

(** [handledAs], as a test. *)
Definition handledAsb (r : Role) (l : Loop) (path : string) : bool :=
  match r with
  | RoleKeypair => bool_decide (path ∈ keypairMap l)
  | RoleCA => negb (bool_decide (path ∈ keypairMap l)) && bool_decide (path ∈ caMap l)
  end.

(** The timer of a role after notifications, some of which the loop handles
    in the role's branch. *)
Definition afterBurst (r : Role) (l : Loop) (hit : bool) : option Duration :=
  match timerOf r l with
  | Some d => Some d
  | None => if hit then Some watcherEventCoalesceWindow else None
  end.

Definition sameRole (r r' : Role) : bool :=
  match r, r' with
  | RoleKeypair, RoleKeypair | RoleCA, RoleCA => true
  | _, _ => false
  end.

(** Steps that the loop only logs: an error of the event source, or a
    notification for a path in neither map. *)
Definition noise (l : Loop) (s : Step) : bool :=
  match s with
  | Select (FsError _) => true
  | Select (FsEvent path _) =>
      negb (bool_decide (path ∈ keypairMap l)) && negb (bool_decide (path ∈ caMap l))
  | _ => false
  end.

Definition isLog (e : Effect) : bool :=
  match e with
  | Log _ _ _ => true
  | _ => false
  end.

(** The effects other than log lines. *)
Definition actions (out : list Effect) : list Effect :=
  List.filter (λ e, negb (isLog e)) out.

(** Whether the goroutine of [FutureWatcher] has returned, as a number. *)
Definition finishedN (f : Future) : nat :=
  match pc f with
  | Finished => 1
  | _ => 0
  end.

(** The certificate is on disk, the CA bundle is listed twice and once as an
    empty path. *)
Definition demoEmptyCA : list string := ["ca.crt"; ""; "ca.crt"].

(** * Properties *)

(** ** Effects and runs *)

Lemma count_app p (a b : list Effect) : count p (a ++ b) = count p a + count p b.
Proof. unfold count. by rewrite List.filter_app, length_app. Qed.

Lemma emit_nil {S : Type} (o : Outcome S) : emit [] o = o.
Proof. by destruct o. Qed.

Lemma emit_emit {S : Type} (a b : list Effect) (o : Outcome S) :
  emit a (emit b o) = emit (a ++ b) o.
Proof. destruct o; simpl; [done | done |]. by rewrite app_assoc. Qed.

Lemma emit_Next_inv {S : Type} pre (o : Outcome S) s out :
  emit pre o = Next s out → ∃ out', o = Next s out' ∧ out = (pre ++ out')%list.
Proof. destruct o; simpl; intros H; simplify_eq. eauto. Qed.

Lemma runWith_app {S I : Type} (f : S → I → Outcome S) (s : S) (a b : list I) :
  runWith f s (a ++ b) =
  match runWith f s a with
  | Next s' out => emit out (runWith f s' b)
  | other => other
  end.
Proof.
  revert s. induction a as [|i a IH]; intros s; simpl.
  - by rewrite emit_nil.
  - destruct (f s i) as [| |s1 out1]; simpl; [done | done |].
    rewrite IH. destruct (runWith f s1 a); simpl; [done | done |].
    by rewrite emit_emit.
Qed.

Lemma runWith_cons_inv {S I : Type} (f : S → I → Outcome S) s i rest s' out :
  runWith f s (i :: rest) = Next s' out →
  ∃ s1 out1 out2,
    f s i = Next s1 out1 ∧ runWith f s1 rest = Next s' out2
    ∧ out = (out1 ++ out2)%list.
Proof.
  simpl. destruct (f s i) as [| |s1 out1]; [done | done |].
  intros (out2 & H & ->)%emit_Next_inv. eauto 6.
Qed.

Lemma runWith_snoc_inv {S I : Type} (f : S → I → Outcome S) s pre i s' out :
  runWith f s (pre ++ [i]) = Next s' out →
  ∃ s1 out1 out2,
    runWith f s pre = Next s1 out1 ∧ f s1 i = Next s' out2
    ∧ out = (out1 ++ out2)%list.
Proof.
  rewrite runWith_app.
  destruct (runWith f s pre) as [| |s1 out1]; [done | done |].
  intros (out2 & H & ->)%emit_Next_inv. simpl in H.
  destruct (f s1 i) as [| |s2 o2] eqn:E; simpl in H; simplify_eq.
  rewrite app_nil_r. by exists s1, out1, o2.
Qed.

Lemma run_cons l s tr :
  run l (s :: tr)
  = match step l s with
    | Next l' out => emit out (run l' tr)
    | other => other
    end.
Proof. reflexivity. Qed.

(** ** The one-shot guard *)

Lemma markReady_consistent l :
  consistent l →
  markReady l = Next (signalled l) (if once l then [] else [CloseReady]).
Proof.
  unfold consistent, markReady, signalled. destruct l as [w o r km cm kr cr rn].
  simpl. destruct o, r; simpl; intros H; by simplify_eq.
Qed.

Lemma Watch_consistent w : consistent (Watch w).
Proof. reflexivity. Qed.

(** Every step keeps the guard and the channel in agreement, and leaves the
    path maps alone. *)
Lemma step_Next l s l' out :
  consistent l → step l s = Next l' out →
  consistent l' ∧ keypairMap l' = keypairMap l ∧ caMap l' = caMap l.
Proof.
  intros Hc H. destruct s as [c|]; simpl in H.
  - unfold iteration in H. destruct (running l); simpl in H; [|done].
    destruct c; simpl in H.
    + repeat case_match; simplify_eq; done.
    + destruct (keypairReload l); [|done].
      destruct disk as [kp|err]; simpl in H; [|by simplify_eq].
      case_match.
      * rewrite markReady_consistent in H by done. simpl in H. by simplify_eq.
      * simpl in H. by simplify_eq.
    + destruct (caReload l); [|done].
      destruct disk as [ca|err]; simpl in H; [|by simplify_eq].
      case_match.
      * rewrite markReady_consistent in H by done. simpl in H. by simplify_eq.
      * simpl in H. by simplify_eq.
    + by simplify_eq.
    + destruct (stop (watcher l)); by simplify_eq.
  - unfold Stop in H. destruct (stop (watcher l)); simpl in H; by simplify_eq.
Qed.

Lemma step_no_crash l s msg : consistent l → step l s ≠ Crash msg.
Proof.
  intros Hc H. destruct s as [c|]; simpl in H.
  - unfold iteration in H. destruct (running l); simpl in H; [|done].
    destruct c; simpl in H.
    + repeat case_match; simplify_eq.
    + destruct (keypairReload l); [|done].
      destruct disk as [kp|err]; simpl in H; [|done].
      case_match; [|done].
      rewrite markReady_consistent in H by done. done.
    + destruct (caReload l); [|done].
      destruct disk as [ca|err]; simpl in H; [|done].
      case_match; [|done].
      rewrite markReady_consistent in H by done. done.
    + done.
    + by destruct (stop (watcher l)).
  - unfold Stop in H. by destruct (stop (watcher l)).
Qed.

Lemma run_Next l tr l' out :
  consistent l → run l tr = Next l' out →
  consistent l' ∧ keypairMap l' = keypairMap l ∧ caMap l' = caMap l.
Proof.
  unfold run. revert l out. induction tr as [|s tr IH]; intros l out Hc H.
  - simpl in H. by simplify_eq.
  - apply runWith_cons_inv in H as (l1 & o1 & o2 & H1 & H2 & ->).
    destruct (step_Next _ _ _ _ Hc H1) as (Hc1 & Hk & Ha).
    destruct (IH _ _ Hc1 H2) as (? & ? & ?). split_and!; congruence.
Qed.

Lemma run_no_crash l tr msg : consistent l → run l tr ≠ Crash msg.
Proof.
  revert l. induction tr as [|s tr IH]; intros l Hc; [done|].
  unfold run. simpl. fold run.
  destruct (step l s) as [| |l1 o1] eqn:H1;
    [done | by apply step_no_crash in H1 |].
  destruct (step_Next _ _ _ _ Hc H1) as (Hc1 & _).
  specialize (IH _ Hc1). by destruct (run l1 tr).
Qed.

(** ** Readiness *)

Local Ltac close_step :=
  simpl; unfold reloadSuccess; simpl;
  rewrite ?orb_true_r, ?orb_false_r; split_and!; try done; intuition congruence.

Lemma step_readiness l s l' out :
  consistent l → step l s = Next l' out →
  fired l' = fired l + count isCloseReady out
  ∧ (ready l' = Closed ↔
     ready l = Closed ∨ (reloadSuccess s = true ∧ Ready (storeOf l') = true))
  ∧ samePaths (storeOf l) (storeOf l')
  ∧ isLoaded (keypair (storeOf l'))
    = isLoaded (keypair (storeOf l)) || keypairSuccess s
  ∧ isLoaded (caCertPool (storeOf l'))
    = isLoaded (caCertPool (storeOf l)) || caSuccess s.
Proof.
  intros Hc H. destruct l as [[rl fw st] o r km cm kr cr rn].
  unfold consistent in Hc. simpl in Hc. unfold storeOf, samePaths, fired.
  destruct s as [[path op|[kp|err]|[ca|err]|err|]|];
    unfold step, iteration, Stop in H; simpl in H;
    destruct rn; simpl in H; try done.
  - repeat case_match; simplify_eq; close_step.
  - destruct kr; [|done]. simpl in H.
    match type of H with context [Ready ?x] => destruct (Ready x) eqn:HR end;
      unfold markReady in H; destruct o, r; simpl in H; simplify_eq;
      close_step.
  - destruct kr; [|done]. simplify_eq; close_step.
  - destruct cr; [|done]. simpl in H.
    match type of H with context [Ready ?x] => destruct (Ready x) eqn:HR end;
      unfold markReady in H; destruct o, r; simpl in H; simplify_eq;
      close_step.
  - destruct cr; [|done]. simplify_eq; close_step.
  - simplify_eq; close_step.
  - destruct st; simplify_eq; close_step.
  - destruct st; simpl in H; simplify_eq; close_step.
  - destruct st; simpl in H; simplify_eq; close_step.
Qed.

Lemma samePaths_roles r r' :
  samePaths r r' → HasKeypair r' = HasKeypair r ∧ HasCustomCA r' = HasCustomCA r.
Proof.
  intros (Hca & Hcert & Hkey). unfold HasKeypair, HasCustomCA.
  by rewrite Hca, Hcert, Hkey.
Qed.

Lemma run_readiness l tr l' out :
  consistent l → run l tr = Next l' out →
  fired l' = fired l + count isCloseReady out
  ∧ samePaths (storeOf l) (storeOf l')
  ∧ isLoaded (keypair (storeOf l'))
    = isLoaded (keypair (storeOf l)) || existsb keypairSuccess tr
  ∧ isLoaded (caCertPool (storeOf l'))
    = isLoaded (caCertPool (storeOf l)) || existsb caSuccess tr.
Proof.
  unfold run. revert l out. induction tr as [|s tr IH]; intros l out Hc H.
  - simpl in H. simplify_eq. simpl. rewrite !orb_false_r.
    unfold samePaths, count. simpl. split_and!; try done; lia.
  - apply runWith_cons_inv in H as (l1 & o1 & o2 & H1 & H2 & ->).
    destruct (step_Next _ _ _ _ Hc H1) as (Hc1 & _).
    destruct (step_readiness _ _ _ _ Hc H1) as (Hf & _ & Hp & Hk & Ha).
    destruct (IH _ _ Hc1 H2) as (Hf' & Hp' & Hk' & Ha').
    rewrite count_app, Hk', Ha', Hk, Ha. simpl. rewrite !orb_assoc.
    unfold samePaths in *. split_and!; try done; try lia; intuition congruence.
Qed.

Lemma keypairSucceeded_existsb tr :
  keypairSucceeded tr ↔ existsb keypairSuccess tr = true.
Proof.
  rewrite existsb_exists. unfold keypairSucceeded. split.
  - intros [kp Hin]. exists (Select (KeypairTimer (Loaded kp))).
    split; [by apply list_elem_of_In | done].
  - intros ([[| [kp|] | | |]|] & Hin & Hs); try done.
    exists kp. by apply list_elem_of_In.
Qed.

Lemma caSucceeded_existsb tr :
  caSucceeded tr ↔ existsb caSuccess tr = true.
Proof.
  rewrite existsb_exists. unfold caSucceeded. split.
  - intros [ca Hin]. exists (Select (CATimer (Loaded ca))).
    split; [by apply list_elem_of_In | done].
  - intros ([[| | [ca|] | |]|] & Hin & Hs); try done.
    exists ca. by apply list_elem_of_In.
Qed.

(** [ready] is closed exactly when some reload made by the loop succeeded
    with the store ready right after it. *)
Lemma ready_closed_iff l0 tr l out :
  consistent l0 → ready l0 = Open → run l0 tr = Next l out →
  ready l = Closed ↔
  ∃ pre s post l1 out1,
    tr = (pre ++ s :: post)%list ∧ reloadSuccess s = true
    ∧ run l0 (pre ++ [s]) = Next l1 out1 ∧ Ready (storeOf l1) = true.
Proof.
  intros Hc0 Hopen. revert l out.
  induction tr as [|s tr IH] using rev_ind; intros l out H.
  - unfold run in H. simpl in H. simplify_eq. split; [congruence|].
    intros (pre & s & post & ? & ? & Htr & _). by destruct pre.
  - pose proof H as Hall.
    apply runWith_snoc_inv in H as (l1 & o1 & o2 & H1 & H2 & ->).
    destruct (run_Next _ _ _ _ Hc0 H1) as (Hc1 & _).
    destruct (step_readiness _ _ _ _ Hc1 H2) as (_ & Hr & _).
    rewrite Hr, (IH _ _ H1). split.
    + intros [(pre & s' & post & l2 & out2 & -> & Hs & Hrun & HR) | [Hs HR]].
      * exists pre, s', (post ++ [s])%list, l2, out2.
        by rewrite <- app_assoc.
      * by exists tr, s, [], l, (o1 ++ o2)%list.
    + intros (pre & s' & post & l2 & out2 & Htr & Hs & Hrun & HR).
      destruct post as [|p post _] using rev_ind.
      * apply app_inj_tail in Htr as [-> ->]. right. split; [done|].
        rewrite Hall in Hrun. by simplify_eq.
      * left. rewrite app_comm_cons, app_assoc in Htr.
        apply app_inj_tail in Htr as [-> ->]. by exists pre, s', post, l2, out2.
Qed.

(** With nothing loaded when the loop starts, [ready] is closed exactly when
    every configured role has been reloaded with success by the loop, and
    some reload has succeeded. *)
Lemma ready_closed_roles w tr l out :
  keypair (reloader w) = None → caCertPool (reloader w) = None →
  run (Watch w) tr = Next l out →
  ready l = Closed ↔
  (HasKeypair (reloader w) = true → keypairSucceeded tr)
  ∧ (HasCustomCA (reloader w) = true → caSucceeded tr)
  ∧ (keypairSucceeded tr ∨ caSucceeded tr).
Proof.
  intros Hk0 Ha0. rewrite keypairSucceeded_existsb, caSucceeded_existsb.
  revert l out. induction tr as [|s tr IH] using rev_ind; intros l out H.
  - unfold run in H. simpl in H. simplify_eq. simpl. intuition congruence.
  - pose proof H as Hall.
    apply runWith_snoc_inv in H as (l1 & o1 & o2 & H1 & H2 & ->).
    destruct (run_Next _ _ _ _ (Watch_consistent w) H1) as (Hc1 & _).
    destruct (step_readiness _ _ _ _ Hc1 H2) as (_ & Hr & _).
    destruct (run_readiness _ _ _ _ (Watch_consistent w) Hall)
      as (_ & Hp & Hk & Ha).
    destruct (samePaths_roles _ _ Hp) as [Hkp' Hca'].
    rewrite Hr, (IH _ _ H1). unfold Ready. rewrite Hkp', Hca', Hk, Ha.
    unfold storeOf. simpl. rewrite Hk0, Ha0. simpl.
    rewrite !existsb_app. simpl. unfold reloadSuccess.
    destruct (HasKeypair (reloader w)), (HasCustomCA (reloader w)),
      (existsb keypairSuccess tr), (existsb caSuccess tr),
      (keypairSuccess s), (caSuccess s); simpl; intuition congruence.
Qed.

(** C1 (amended): in every run of the loop started by [Watch], [ready] is
    closed at most once; it has been closed once exactly when it is closed,
    which is exactly when some reload made by the loop succeeded and left the
    store ready; and for a Watcher with nothing loaded when the loop starts,
    that is exactly when every configured role has been reloaded with success
    by the loop at least once (and some reload has succeeded): with both
    roles configured, when the keypair and the CA each have. *)
Theorem ready_signal_at_most_once w tr l out :
  run (Watch w) tr = Next l out →
  (count isCloseReady out ≤ 1)%nat
  ∧ (count isCloseReady out = 1 ↔ ready l = Closed)
  ∧ (ready l = Closed ↔
     ∃ pre s post l1 out1,
       tr = (pre ++ s :: post)%list ∧ reloadSuccess s = true
       ∧ run (Watch w) (pre ++ [s]) = Next l1 out1 ∧ Ready (storeOf l1) = true)
  ∧ (keypair (reloader w) = None → caCertPool (reloader w) = None →
     (count isCloseReady out = 1 ↔
      (HasKeypair (reloader w) = true → keypairSucceeded tr)
      ∧ (HasCustomCA (reloader w) = true → caSucceeded tr)
      ∧ (keypairSucceeded tr ∨ caSucceeded tr))
     ∧ (HasKeypair (reloader w) = true → HasCustomCA (reloader w) = true →
        (count isCloseReady out = 1 ↔ keypairSucceeded tr ∧ caSucceeded tr))).
Proof.
  intros H.
  destruct (run_readiness _ _ _ _ (Watch_consistent w) H) as (Hf & _).
  assert (Hcount : count isCloseReady out = 1 ↔ ready l = Closed).
  { unfold fired in Hf. simpl in Hf. destruct (ready l); split; (lia || done). }
  split_and!.
  - unfold fired in Hf. destruct (ready l); simpl in Hf; lia.
  - done.
  - by apply (ready_closed_iff (Watch w) tr l out (Watch_consistent w)).
  - intros Hk Ha. rewrite Hcount.
    pose proof (ready_closed_roles w tr l out Hk Ha H) as Hroles.
    split; [done|]. intros Hkp Hca. rewrite Hroles. intuition.
Qed.

Lemma ready_signal_at_most_once_witness :
  ∃ l out,
    run (Watch (demoWatcher None None)) demoRotation = Next l out
    ∧ count isCloseReady out = 1
    ∧ (count isCloseReady out = 1 ↔
       keypairSucceeded demoRotation ∧ caSucceeded demoRotation).
Proof.
  destruct (run (Watch (demoWatcher None None)) demoRotation) as [| |l out] eqn:H;
    [by vm_compute in H | by vm_compute in H |].
  exists l, out. split; [done|].
  destruct (ready_signal_at_most_once _ _ _ _ H) as (_ & _ & _ & Hboth).
  split; [|by apply Hboth].
  vm_compute in H. by simplify_eq.
Defined.

(** C1 as stated fails. A Watcher from [NewWatcher] has both roles loaded
    and stays ready through a failed reload, yet [ready] is never closed; and
    a Watcher from [FutureWatcher] whose keypair was loaded by the eager
    reload closes [ready] on a CA reload alone, with no keypair reload by the
    loop. *)
Lemma ready_signal_counterexample :
  NewWatcher demoEnv ["ca.crt"] "tls.crt" "tls.key"
  = inl (Watch (demoWatcher (Some demoKeypair) (Some demoPool)))
  ∧ (∃ f eff,
       FutureWatcher demoEnvNoCA ["ca.crt"] "tls.crt" "tls.key" = inl (f, eff)
       ∧ loop f = Watch (demoWatcher (Some demoKeypair) None))
  ∧ (∃ l out,
       run (Watch (demoWatcher (Some demoKeypair) (Some demoPool)))
           [Select (FsEvent "tls.crt" Write);
            Select (KeypairTimer (LoadFailed "tls: failed to find any PEM data"))]
       = Next l out
       ∧ Ready (storeOf l) = true
       ∧ count isCloseReady out = 0 ∧ ready l = Open)
  ∧ (∃ l out,
       run (Watch (demoWatcher (Some demoKeypair) None))
           [Select (FsEvent "ca.crt" Create); Select (CATimer (Loaded demoPool))]
       = Next l out
       ∧ count isCloseReady out = 1 ∧ ready l = Closed
       ∧ ¬ keypairSucceeded
             [Select (FsEvent "ca.crt" Create); Select (CATimer (Loaded demoPool))]).
Proof.
  split_and!.
  - reflexivity.
  - by eexists _, _.
  - eexists _, _. split; [vm_compute; reflexivity|]. by vm_compute.
  - eexists _, _. split; [vm_compute; reflexivity|]. split_and!; [done..|].
    rewrite keypairSucceeded_existsb. by vm_compute.
Qed.

(** ** Coalescing *)

Lemma notify_arms r l path op :
  running l = true → timerOf r l = None → handledAs r l path →
  ∃ l',
    step l (Select (FsEvent path op))
    = Next l' [received path; TimeAfter r watcherEventCoalesceWindow]
    ∧ timerOf r l' = Some watcherEventCoalesceWindow
    ∧ running l' = true ∧ keypairMap l' = keypairMap l ∧ caMap l' = caMap l
    ∧ ready l' = ready l ∧ once l' = once l.
Proof.
  intros Hrun Ht Hp. simpl. unfold iteration. rewrite Hrun. simpl.
  destruct r; simpl in Ht, Hp.
  - rewrite (bool_decide_eq_true_2 _ Hp), Ht. by eexists.
  - destruct Hp as [Hk Hc].
    rewrite (bool_decide_eq_false_2 _ Hk), (bool_decide_eq_true_2 _ Hc), Ht.
    by eexists.
Qed.

Lemma notify_absorbed r l path op :
  running l = true → isLoaded (timerOf r l) = true → handledAs r l path →
  step l (Select (FsEvent path op)) = Next l [received path].
Proof.
  intros Hrun Ht Hp. simpl. unfold iteration. rewrite Hrun. simpl.
  destruct r; simpl in Ht, Hp.
  - rewrite (bool_decide_eq_true_2 _ Hp). by destruct (keypairReload l).
  - destruct Hp as [Hk Hc].
    rewrite (bool_decide_eq_false_2 _ Hk), (bool_decide_eq_true_2 _ Hc).
    by destruct (caReload l).
Qed.

Lemma burst_absorbed r l (events : list (string * Op)) :
  running l = true → isLoaded (timerOf r l) = true →
  Forall (λ e, handledAs r l e.1) events →
  ∃ out,
    run l (notify <$> events) = Next l out
    ∧ count (isTimeAfter r) out = 0 ∧ count (isReload r) out = 0.
Proof.
  intros Hrun Ht. induction 1 as [|[path op] events Hp _ (out & IH & Hn & Hr)].
  - by exists [].
  - exists (received path :: out). rewrite fmap_cons, run_cons.
    unfold notify at 1. simpl fst. simpl snd.
    rewrite (notify_absorbed r l path op Hrun Ht Hp), IH. simpl. split; [done|].
    unfold count in *. simpl. by destruct r.
Qed.

Lemma timer_fires r l c :
  consistent l → running l = true → isLoaded (timerOf r l) = true →
  timerCase r c →
  ∃ l' out,
    step l (Select c) = Next l' out
    ∧ count (isReload r) out = 1 ∧ count (isTimeAfter r) out = 0
    ∧ timerOf r l' = None ∧ running l' = true.
Proof.
  intros Hc Hrun Ht Hcase. destruct l as [[rl fw st] o rd km cm kr cr rn].
  unfold consistent in Hc. simpl in Hc, Hrun. subst rn.
  destruct r, c as [| [kp|err] | [ca|err] | |]; simpl in Hcase, Ht; try done;
    simpl; unfold iteration; simpl.
  - destruct kr; [|done]. simpl.
    match goal with |- context [Ready ?x] => destruct (Ready x) end;
      unfold markReady; destruct o, rd; simplify_eq; simpl; by eexists _, _.
  - destruct kr; [|done]. simpl. by eexists _, _.
  - destruct cr; [|done]. simpl.
    match goal with |- context [Ready ?x] => destruct (Ready x) end;
      unfold markReady; destruct o, rd; simplify_eq; simpl; by eexists _, _.
  - destruct cr; [|done]. simpl. by eexists _, _.
Qed.

Lemma timer_idle r l c :
  timerOf r l = None → timerCase r c → step l (Select c) = Blocked.
Proof.
  intros Ht Hcase. simpl. unfold iteration. destruct (running l); [|done]. simpl.
  destruct r, c; simpl in Hcase, Ht; try done; by rewrite Ht.
Qed.

(** C2: for each role, a burst of notifications that the loop handles in
    that role's branch, starting with no timer armed for the role: the first
    one arms the timer, the others arm nothing, and no reload is made
    meanwhile; when the timer fires the armed marker is cleared and the role
    is reloaded once, after which the timer case cannot fire again until a new
    notification arrives. *)
Theorem burst_coalesced r l first (others : list (string * Op)) :
  consistent l → running l = true → timerOf r l = None →
  Forall (λ e, handledAs r l e.1) (first :: others) →
  ∃ l1 out1 l2 out2,
    step l (notify first) = Next l1 out1
    ∧ count (isTimeAfter r) out1 = 1
    ∧ run l1 (notify <$> others) = Next l2 out2
    ∧ count (isTimeAfter r) out2 = 0
    ∧ timerOf r l2 = Some watcherEventCoalesceWindow
    ∧ run l (notify <$> first :: others) = Next l2 (out1 ++ out2)%list
    ∧ count (isReload r) (out1 ++ out2) = 0
    ∧ ∀ c, timerCase r c →
        ∃ l3 out3,
          step l2 (Select c) = Next l3 out3
          ∧ count (isReload r) (out1 ++ out2 ++ out3) = 1
          ∧ count (isTimeAfter r) (out1 ++ out2 ++ out3) = 1
          ∧ timerOf r l3 = None
          ∧ ∀ c', timerCase r c' → step l3 (Select c') = Blocked.
Proof.
  intros Hc Hrun Ht Hall. apply Forall_cons in Hall as [Hfirst Hothers].
  destruct first as [path op]. simpl in Hfirst.
  destruct (notify_arms r l path op Hrun Ht Hfirst)
    as (l1 & Hs & Ht1 & Hrun1 & Hkm & Hcm & Hrd & Hon).
  assert (consistent l1) as Hc1 by (unfold consistent in *; by rewrite Hrd, Hon).
  assert (Forall (λ e, handledAs r l1 e.1) others) as Hothers1.
  { eapply Forall_impl; [exact Hothers|]. intros e.
    unfold handledAs. by rewrite Hkm, Hcm. }
  destruct (burst_absorbed r l1 others Hrun1) as (out2 & Hb & Hn2 & Hr2);
    [by rewrite Ht1 | done |].
  exists l1, [received path; TimeAfter r watcherEventCoalesceWindow], l1, out2.
  assert (count (isTimeAfter r)
            [received path; TimeAfter r watcherEventCoalesceWindow] = 1
          ∧ count (isReload r)
              [received path; TimeAfter r watcherEventCoalesceWindow] = 0)
    as [Hn1 Hr1] by (by destruct r).
  split_and!; try done.
  - rewrite fmap_cons, run_cons. unfold notify at 1. simpl fst. simpl snd.
    by rewrite Hs, Hb.
  - intros c Hcase.
    destruct (timer_fires r l1 c Hc1 Hrun1) as (l3 & out3 & H3 & Hr3 & Hn3 & Ht3 & _);
      [by rewrite Ht1 | done |].
    exists l3, out3. rewrite !count_app, Hr1, Hr2, Hr3, Hn1, Hn2, Hn3.
    split_and!; try done. intros c' Hcase'. by apply timer_idle with r.
Qed.

Lemma burst_coalesced_witness :
  ∃ l out,
    run (Watch (demoWatcher None None))
        [Select (FsEvent "ca.crt" Create); Select (FsEvent "ca.crt" Write);
         Select (FsEvent "ca.crt" Chmod); Select (CATimer (Loaded demoPool))]
    = Next l out
    ∧ count (isReload RoleCA) out = 1 ∧ count (isTimeAfter RoleCA) out = 1
    ∧ caReload l = None.
Proof.
  destruct (burst_coalesced RoleCA (Watch (demoWatcher None None))
              ("ca.crt", Create) [("ca.crt", Write); ("ca.crt", Chmod)])
    as (l1 & out1 & l2 & out2 & _ & _ & _ & _ & _ & Hrun & _ & Hfire);
    [reflexivity | reflexivity | reflexivity
    | repeat constructor; compute_done |].
  destruct (Hfire (CATimer (Loaded demoPool)) I)
    as (l3 & out3 & H3 & Hr & Hn & Ht & _).
  exists l3, (out1 ++ out2 ++ out3)%list. split_and!; [|done..].
  change [Select (FsEvent "ca.crt" Create); Select (FsEvent "ca.crt" Write);
          Select (FsEvent "ca.crt" Chmod); Select (CATimer (Loaded demoPool))]
    with ((notify <$> [("ca.crt", Create); ("ca.crt", Write); ("ca.crt", Chmod)])
          ++ [Select (CATimer (Loaded demoPool))])%list.
  unfold run in *. rewrite runWith_app, Hrun. simpl in H3 |- *. rewrite H3. simpl.
  by rewrite app_nil_r, app_assoc.
Defined.

(** ** Single iterations *)

(** C5: a reload started by a timer that fails is logged as a warning and
    nothing else happens: the loop keeps running, the fired timer is cleared
    and no timer is armed in its place, [ready] and its guard are untouched,
    and the store, hence [Ready], is what it was. The next notification for
    the role arms its timer again. *)
Theorem failed_reload_only_logged l err :
  running l = true →
  (isLoaded (keypairReload l) = true →
   ∃ l',
     iteration l (KeypairTimer (LoadFailed err))
     = Next l' [Reload RoleKeypair; Log Warn "Keypair update failed" err]
     ∧ running l' = true
     ∧ keypairReload l' = None ∧ caReload l' = caReload l
     ∧ ready l' = ready l ∧ once l' = once l
     ∧ storeOf l' = storeOf l
     ∧ Ready (storeOf l') = Ready (storeOf l)
     ∧ ∀ path op,
         handledAs RoleKeypair l path →
         ∃ l'',
           step l' (Select (FsEvent path op))
           = Next l'' [received path;
                       TimeAfter RoleKeypair watcherEventCoalesceWindow])
  ∧ (isLoaded (caReload l) = true →
     ∃ l',
       iteration l (CATimer (LoadFailed err))
       = Next l' [Reload RoleCA;
                  Log Warn "Certificate authority update failed" err]
       ∧ running l' = true
       ∧ caReload l' = None ∧ keypairReload l' = keypairReload l
       ∧ ready l' = ready l ∧ once l' = once l
       ∧ storeOf l' = storeOf l
       ∧ Ready (storeOf l') = Ready (storeOf l)
       ∧ ∀ path op,
           handledAs RoleCA l path →
           ∃ l'',
             step l' (Select (FsEvent path op))
             = Next l'' [received path;
                         TimeAfter RoleCA watcherEventCoalesceWindow]).
Proof.
  intros Hrun. split.
  - intros Ht. exists (withKeypairReload None l). split.
    { unfold iteration. rewrite Hrun. simpl.
      destruct (keypairReload l); [|done]. by destruct l as [[] ? ? ? ? ? ? ?]. }
    split_and!; try done. intros path op Hp.
    destruct (notify_arms RoleKeypair (withKeypairReload None l) path op)
      as (l'' & Hs & _); [done..|]. by exists l''.
  - intros Ht. exists (withCaReload None l). split.
    { unfold iteration. rewrite Hrun. simpl.
      destruct (caReload l); [|done]. by destruct l as [[] ? ? ? ? ? ? ?]. }
    split_and!; try done. intros path op Hp.
    destruct (notify_arms RoleCA (withCaReload None l) path op)
      as (l'' & Hs & _); [done..|]. by exists l''.
Qed.

Lemma failed_reload_only_logged_witness :
  (∃ l',
     iteration demoArmed (KeypairTimer (LoadFailed "tls: private key does not match"))
     = Next l' [Reload RoleKeypair;
                Log Warn "Keypair update failed" "tls: private key does not match"]
     ∧ running l' = true
     ∧ keypairReload l' = None ∧ caReload l' = caReload demoArmed
     ∧ ready l' = ready demoArmed ∧ once l' = once demoArmed
     ∧ storeOf l' = storeOf demoArmed
     ∧ Ready (storeOf l') = Ready (storeOf demoArmed))
  ∧ keypair (storeOf demoArmed) = Some demoKeypair.
Proof.
  split; [|reflexivity].
  destruct (failed_reload_only_logged demoArmed "tls: private key does not match")
    as [(l' & H) _]; [reflexivity..|].
  exists l'. by destruct_and!.
Defined.

(** C7: a notification for a path in neither map is logged with a warning
    and changes nothing: the loop is in the same state and still running,
    with no timer armed and no reload made, so that whatever comes next is
    handled as if the notification had not arrived; in particular a later
    notification for a tracked path still leads to one reload of its role. *)
Theorem unknown_path_ignored l path op :
  running l = true → path ∉ keypairMap l → path ∉ caMap l →
  iteration l (FsEvent path op)
  = Next l [received path; Log Warn "Unknown file, ignoring." path]
  ∧ (∀ tr,
       run l (Select (FsEvent path op) :: tr)
       = emit [received path; Log Warn "Unknown file, ignoring." path] (run l tr))
  ∧ ∀ r path' op' c,
      consistent l → timerOf r l = None → handledAs r l path' → timerCase r c →
      ∃ l' out,
        run l [Select (FsEvent path op); Select (FsEvent path' op'); Select c]
        = Next l' out
        ∧ count (isReload r) out = 1 ∧ running l' = true.
Proof.
  intros Hrun Hk Hc.
  assert (iteration l (FsEvent path op)
          = Next l [received path; Log Warn "Unknown file, ignoring." path])
    as Hit.
  { unfold iteration. rewrite Hrun. simpl.
    by rewrite (bool_decide_eq_false_2 _ Hk), (bool_decide_eq_false_2 _ Hc). }
  assert (∀ tr,
            run l (Select (FsEvent path op) :: tr)
            = emit [received path; Log Warn "Unknown file, ignoring." path]
                   (run l tr)) as Hskip.
  { intros tr. rewrite run_cons. simpl. by rewrite Hit. }
  split_and!; [done | done |].
  intros r path' op' c Hcons Ht Hp Hcase. rewrite Hskip, run_cons.
  destruct (notify_arms r l path' op' Hrun Ht Hp)
    as (l1 & -> & Ht1 & Hrun1 & _ & _ & Hrd & Hon).
  assert (consistent l1) as Hc1 by (unfold consistent in *; by rewrite Hrd, Hon).
  destruct (timer_fires r l1 c Hc1 Hrun1) as (l2 & out2 & Hs2 & Hr2 & _ & _ & Hrun2);
    [by rewrite Ht1 | done |].
  rewrite run_cons, Hs2. eexists _, _. split; [reflexivity|]. split; [|done].
  simpl. rewrite app_nil_r. change (?a :: ?b :: ?c :: ?d :: out2)
    with ([a; b; c; d] ++ out2)%list.
  rewrite count_app, Hr2. by destruct r.
Qed.

Lemma unknown_path_ignored_witness :
  ∃ l out,
    run (Watch (demoWatcher None None))
        [Select (FsEvent "notes.txt" Create); Select (FsEvent "ca.crt" Write);
         Select (CATimer (Loaded demoPool))]
    = Next l out
    ∧ count isWarn out = 1 ∧ count (isReload RoleCA) out = 1
    ∧ running l = true.
Proof.
  destruct (unknown_path_ignored (Watch (demoWatcher None None))
              "notes.txt" Create) as (_ & H & _);
    [reflexivity | compute_done | compute_done |].
  eexists _, _. split; [rewrite H; vm_compute; reflexivity|]. by vm_compute.
Defined.

(** C9: a notification for a path that is in both maps is handled by the
    keypair branch alone: the keypair timer is armed (when it is not already)
    and the CA timer is left as it was. *)
Theorem keypair_takes_precedence l path op :
  running l = true → path ∈ keypairMap l → path ∈ caMap l →
  ∃ l' out,
    iteration l (FsEvent path op) = Next l' out
    ∧ caReload l' = caReload l
    ∧ count (isTimeAfter RoleCA) out = 0
    ∧ (isLoaded (keypairReload l') = true)
    ∧ (keypairReload l = None →
       keypairReload l' = Some watcherEventCoalesceWindow
       ∧ count (isTimeAfter RoleKeypair) out = 1)
    ∧ (isLoaded (keypairReload l) = true → l' = l).
Proof.
  intros Hrun Hk Hc. unfold iteration. rewrite Hrun. simpl.
  rewrite (bool_decide_eq_true_2 _ Hk).
  destruct (keypairReload l) as [d|] eqn:Hkr.
  - exists l, [received path]. rewrite Hkr. by split_and!.
  - eexists _, _. split; [reflexivity|]. simpl. by split_and!.
Qed.

Lemma keypair_takes_precedence_witness :
  ∃ l' out,
    iteration (Watch demoShared) (FsEvent "tls.crt" Write) = Next l' out
    ∧ caReload l' = None
    ∧ count (isTimeAfter RoleCA) out = 0
    ∧ keypairReload l' = Some watcherEventCoalesceWindow.
Proof.
  destruct (keypair_takes_precedence (Watch demoShared) "tls.crt" Write)
    as (l' & out & H & Hca & Hn & _ & Harm & _);
    [reflexivity | compute_done | compute_done |].
  exists l', out. split_and!; [done | done | done |]. by apply Harm.
Defined.

(** ** Shutdown *)

Lemma step_shutdown l s l' out :
  step l s = Next l' out →
  stoppedN l' = stoppedN l + count isCloseStop out
  ∧ exitedN l' = exitedN l + count isFswClose out
  ∧ (stop (watcher l') = Closed ↔ stop (watcher l) = Closed ∨ s = CallStop)
  ∧ ((running l = false → stop (watcher l) = Closed) →
     running l' = false → stop (watcher l') = Closed).
Proof.
  intros H. destruct l as [[rl fw st] o r km cm kr cr rn].
  unfold stoppedN, exitedN.
  destruct s as [[path op|[kp|err]|[ca|err]|err|]|];
    unfold step, iteration, Stop in H; simpl in H.
  1-7: destruct rn; simpl in H; [|done].
  - destruct (bool_decide (path ∈ km)), (bool_decide (path ∈ cm)), kr, cr;
      simplify_eq; simpl; split_and!; try done; intuition congruence.
  - destruct kr; [|done]. simpl in H.
    match type of H with context [Ready ?x] => destruct (Ready x) end;
      unfold markReady in H; destruct o, r; simpl in H; simplify_eq; simpl;
      split_and!; try done; intuition congruence.
  - destruct kr; [|done]. simplify_eq; simpl.
    split_and!; try done; intuition congruence.
  - destruct cr; [|done]. simpl in H.
    match type of H with context [Ready ?x] => destruct (Ready x) end;
      unfold markReady in H; destruct o, r; simpl in H; simplify_eq; simpl;
      split_and!; try done; intuition congruence.
  - destruct cr; [|done]. simplify_eq; simpl.
    split_and!; try done; intuition congruence.
  - simplify_eq; simpl. split_and!; try done; intuition congruence.
  - destruct st; simplify_eq; simpl. split_and!; try done; intuition congruence.
  - destruct st; simpl in H; simplify_eq; simpl; destruct rn;
      split_and!; try done; intuition congruence.
Qed.

Lemma run_shutdown l tr l' out :
  run l tr = Next l' out →
  stoppedN l' = stoppedN l + count isCloseStop out
  ∧ exitedN l' = exitedN l + count isFswClose out
  ∧ (stop (watcher l') = Closed ↔ stop (watcher l) = Closed ∨ CallStop ∈ tr)
  ∧ ((running l = false → stop (watcher l) = Closed) →
     running l' = false → stop (watcher l') = Closed).
Proof.
  revert l out. induction tr as [|s tr IH]; intros l out H.
  - unfold run in H. simpl in H. simplify_eq. unfold count. simpl.
    split_and!; [lia | lia | | done].
    split; [by left|]. intros [?|Hin]; [done|]. by apply elem_of_nil in Hin.
  - unfold run in H.
    apply runWith_cons_inv in H as (l1 & o1 & o2 & H1 & H2 & ->).
    destruct (step_shutdown _ _ _ _ H1) as (Hs & He & Hc & Hi).
    destruct (IH _ _ H2) as (Hs' & He' & Hc' & Hi').
    rewrite !count_app. split_and!; [lia | lia | | by auto].
    rewrite Hc', Hc, elem_of_cons. intuition congruence.
Qed.

(** After the loop has returned none of its cases is taken any more. *)
Lemma exited_blocked l c : running l = false → step l (Select c) = Blocked.
Proof. intros H. simpl. unfold iteration. by rewrite H. Qed.

(** A call of [Stop] on its own is one goroutine making its moves in a row. *)
Lemma Stop_alone w :
  ∃ w' out sched,
    Stop w = Next w' out
    ∧ runWith stopSched (stop w, [AtSelect]) sched = Next (stop w', [Returned]) out
    ∧ stop w' = Closed
    ∧ reloader w' = reloader w ∧ fswatcher w' = fswatcher w.
Proof.
  unfold Stop. destruct w as [r f [|]]; simpl.
  - by eexists _, _, [0; 0].
  - by eexists _, _, [0].
Qed.

(** C3 (amended): calls of [Stop] that do not overlap never panic, in any
    number and any order with the iterations of the loop; the stop channel is
    closed at most once, and once exactly when [Stop] has been called; the
    event source is released at most once, and once exactly when the loop has
    returned, which happens only after a call of [Stop]; once [Stop] has been
    called the loop can take its stop case, which releases the event source
    and returns; and a loop that has returned does nothing more. *)
Theorem stop_idempotent w :
  (∀ tr msg, run (Watch w) tr ≠ Crash msg)
  ∧ ∀ tr l out,
      stop w = Open → run (Watch w) tr = Next l out →
      (count isCloseStop out ≤ 1)%nat
      ∧ (count isCloseStop out = 1 ↔ CallStop ∈ tr)
      ∧ (count isFswClose out ≤ 1)%nat
      ∧ (count isFswClose out = 1 ↔ running l = false)
      ∧ (running l = false → CallStop ∈ tr)
      ∧ (CallStop ∈ tr → running l = true →
         ∃ l', step l (Select StopSeen)
               = Next l' [Log Info "Stopping fswatcher" ""; FswClose]
               ∧ running l' = false
               ∧ released (fswatcher (watcher l')) = true)
      ∧ (running l = false → ∀ c, step l (Select c) = Blocked).
Proof.
  split; [intros tr msg; apply run_no_crash, Watch_consistent|].
  intros tr l out Hopen H.
  destruct (run_shutdown _ _ _ _ H) as (Hs & He & Hc & Hi).
  unfold stoppedN, exitedN in *. simpl in *. rewrite Hopen in *.
  assert (stop (watcher l) = Closed ↔ CallStop ∈ tr) as Hc'
    by (rewrite Hc; intuition congruence).
  split_and!.
  - destruct (stop (watcher l)); lia.
  - rewrite <- Hc'. destruct (stop (watcher l)); split; (lia || done).
  - destruct (running l); lia.
  - destruct (running l); split; (lia || done).
  - intros Hr. apply Hc', Hi; [done | done].
  - intros Hin%Hc' Hr. simpl. unfold iteration. rewrite Hr, Hin. simpl.
    by eexists.
  - intros Hr c. by apply exited_blocked.
Qed.

Lemma stop_idempotent_witness :
  ∃ l out,
    run (Watch (demoWatcher None None))
        [CallStop; Select (FsEvent "tls.crt" Write); CallStop;
         Select StopSeen; CallStop]
    = Next l out
    ∧ count isCloseStop out = 1 ∧ count isFswClose out = 1
    ∧ running l = false.
Proof.
  destruct (run (Watch (demoWatcher None None))
              [CallStop; Select (FsEvent "tls.crt" Write); CallStop;
               Select StopSeen; CallStop]) as [| |l out] eqn:H;
    [by vm_compute in H | by vm_compute in H |].
  exists l, out. split; [done|].
  destruct (stop_idempotent (demoWatcher None None)) as [_ Hstop].
  destruct (Hstop _ l out eq_refl H) as (_ & Hc & _ & Hf & _).
  assert (running l = false) as Hr by (vm_compute in H; by simplify_eq).
  split_and!; [|by apply Hf|done].
  apply Hc. by constructor.
Defined.

(** C3 as stated fails. Two goroutines that are in [Stop] together can both
    find the channel open and both close it, and the second [close] panics;
    and with no call of [Stop] the channel is not closed and the event source
    is not released. *)
Lemma stop_counterexample :
  runWith stopSched (Open, [AtSelect; AtSelect]) [0; 1; 0; 1]
  = Crash "close of closed channel"
  ∧ ∃ l out,
      run (Watch (demoWatcher None None))
          [Select (FsEvent "tls.crt" Write);
           Select (KeypairTimer (Loaded demoKeypair))]
      = Next l out
      ∧ count isCloseStop out = 0 ∧ count isFswClose out = 0
      ∧ stop (watcher l) = Open ∧ released (fswatcher (watcher l)) = false.
Proof.
  split; [reflexivity|].
  eexists _, _. split; [vm_compute; reflexivity|]. by vm_compute.
Qed.

(** ** Path classification *)

Lemma eqb_empty (p : string) : negb (p =? "") = true ↔ p ≠ "".
Proof.
  rewrite negb_true_iff. destruct (String.eqb_spec p ""); split; congruence.
Qed.

Lemma elem_of_buildKeypairMap r p :
  p ∈ buildKeypairMap r ↔
  (p = certFile r ∧ p ≠ "") ∨ (p = privkeyFile r ∧ p ≠ "").
Proof.
  unfold buildKeypairMap.
  destruct (negb (certFile r =? "")) eqn:Hc, (negb (privkeyFile r =? "")) eqn:Hk;
    try apply eqb_empty in Hc; try apply eqb_empty in Hk;
    try apply negb_false_iff, String.eqb_eq in Hc;
    try apply negb_false_iff, String.eqb_eq in Hk;
    rewrite ?elem_of_union, ?elem_of_singleton, ?elem_of_empty;
    intuition congruence.
Qed.

Lemma elem_of_foldl_insert (paths : list string) (acc : gset string) p :
  p ∈ foldl (λ (caMap : gset string) path, {[path]} ∪ caMap) acc paths
  ↔ p ∈ acc ∨ p ∈ paths.
Proof.
  revert acc. induction paths as [|q paths IH]; intros acc; simpl.
  - rewrite elem_of_nil. tauto.
  - rewrite IH, elem_of_union, elem_of_singleton, elem_of_cons. tauto.
Qed.

Lemma elem_of_buildCaMap r p : p ∈ buildCaMap r ↔ p ∈ caFiles r.
Proof.
  unfold buildCaMap. rewrite elem_of_foldl_insert, elem_of_empty. tauto.
Qed.

Lemma elem_of_foldl_append (paths acc : list string) p :
  p ∈ foldl (λ acc path, if negb (path =? "") then append acc path else acc)
        acc paths
  ↔ p ∈ acc ∨ (p ∈ paths ∧ p ≠ "").
Proof.
  revert acc. induction paths as [|q paths IH]; intros acc; simpl.
  - rewrite elem_of_nil. tauto.
  - rewrite IH, elem_of_cons. destruct (negb (q =? "")) eqn:Hq.
    + apply eqb_empty in Hq. unfold append.
      rewrite elem_of_app, list_elem_of_singleton. intuition congruence.
    + apply negb_false_iff, String.eqb_eq in Hq. intuition congruence.
Qed.

Lemma elem_of_trackedFiles ca cert key p :
  p ∈ trackedFiles ca cert key ↔ p ≠ "" ∧ (p = cert ∨ p = key ∨ p ∈ ca).
Proof.
  unfold trackedFiles. rewrite elem_of_foldl_append. unfold append.
  destruct (negb (cert =? "")) eqn:Hc, (negb (key =? "")) eqn:Hk;
    try apply eqb_empty in Hc; try apply eqb_empty in Hk;
    try apply negb_false_iff, String.eqb_eq in Hc;
    try apply negb_false_iff, String.eqb_eq in Hk;
    simpl; rewrite ?elem_of_cons, ?elem_of_nil; intuition congruence.
Qed.

Lemma builtBy_Watch l env ca cert key :
  builtBy l env ca cert key →
  l = Watch (watcher l)
  ∧ trackFiles (fswatcher (watcher l)) = trackedFiles ca cert key
  ∧ caFiles (storeOf l) = ca ∧ certFile (storeOf l) = cert
  ∧ privkeyFile (storeOf l) = key
  ∧ stop (watcher l) = Open.
Proof.
  destruct env as [re fe [kp|ek] [pool|ea]];
    intros [H | (f & eff & H & <-)];
    unfold NewWatcher, NewFileReloaderReady, FutureWatcher, NewFileReloader,
      newFsWatcher, fswatcher_New in H; simpl in H;
    destruct re, fe; simpl in H; simplify_eq; done.
Qed.

(** C6 (amended): the two path maps are those built when [Watch] starts and
    no iteration changes them; every file the event source is asked to track
    is in at least one of them, and in no more than one when neither the
    certificate nor the key file is also listed as a CA file; and a
    notification, for a path in both maps as for any other, is handled without
    a panic and leaves the loop running. *)
Theorem path_classification l env ca cert key :
  builtBy l env ca cert key →
  keypairMap l = buildKeypairMap (storeOf l)
  ∧ caMap l = buildCaMap (storeOf l)
  ∧ (∀ tr l' out,
       run l tr = Next l' out → keypairMap l' = keypairMap l ∧ caMap l' = caMap l)
  ∧ (∀ p, p ∈ trackFiles (fswatcher (watcher l)) →
          p ∈ keypairMap l ∨ p ∈ caMap l)
  ∧ (cert ∉ ca → key ∉ ca → ∀ p, ¬ (p ∈ keypairMap l ∧ p ∈ caMap l))
  ∧ (∀ tr l' out p op,
       run l tr = Next l' out → running l' = true →
       ∃ l'' out',
         step l' (Select (FsEvent p op)) = Next l'' out' ∧ running l'' = true).
Proof.
  intros (HW & Htrack & Hca & Hcert & Hkey & _)%builtBy_Watch.
  assert (consistent l) as Hcons by (rewrite HW; apply Watch_consistent).
  assert (keypairMap l = buildKeypairMap (storeOf l)) as Hkm by (by rewrite HW).
  assert (caMap l = buildCaMap (storeOf l)) as Hcm by (by rewrite HW).
  split_and!; [done | done | | | |].
  - intros tr l' out H. by destruct (run_Next _ _ _ _ Hcons H) as (_ & ? & ?).
  - intros p. rewrite Htrack, Hkm, Hcm, elem_of_trackedFiles,
      elem_of_buildKeypairMap, elem_of_buildCaMap, Hca, Hcert, Hkey.
    intuition congruence.
  - intros Hc Hk p. rewrite Hkm, Hcm, elem_of_buildKeypairMap,
      elem_of_buildCaMap, Hca, Hcert, Hkey.
    intuition congruence.
  - intros tr l' out p op _ Hrun. simpl. unfold iteration. rewrite Hrun. simpl.
    destruct (bool_decide (p ∈ keypairMap l')), (bool_decide (p ∈ caMap l')),
      (keypairReload l'), (caReload l'); by eexists _, _.
Qed.

Lemma path_classification_witness :
  (∀ p, p ∈ ["tls.crt"; "tls.key"; "ca.crt"] →
        ¬ (p ∈ keypairMap (Watch (demoWatcher (Some demoKeypair) (Some demoPool)))
           ∧ p ∈ caMap (Watch (demoWatcher (Some demoKeypair) (Some demoPool)))))
  ∧ "ca.crt" ∈ caMap (Watch (demoWatcher (Some demoKeypair) (Some demoPool))).
Proof.
  destruct (path_classification
              (Watch (demoWatcher (Some demoKeypair) (Some demoPool)))
              demoEnv ["ca.crt"] "tls.crt" "tls.key")
    as (_ & _ & _ & Hone & Hnot & _); [by left|].
  split.
  - intros p _. apply Hnot; compute_done.
  - destruct (Hone "ca.crt") as [Hk|Hc]; [compute_done | | done].
    exfalso. revert Hk. compute_done.
Defined.

(** C6 as stated fails: when the certificate file is also listed as a CA
    file, it is tracked and it is in both maps. *)
Lemma path_classification_counterexample :
  ∃ l,
    NewWatcher demoEnv ["tls.crt"] "tls.crt" "tls.key" = inl l
    ∧ "tls.crt" ∈ trackFiles (fswatcher (watcher l))
    ∧ "tls.crt" ∈ keypairMap l
    ∧ "tls.crt" ∈ caMap l.
Proof. eexists. split_and!; [reflexivity | compute_done..]. Qed.

(** ** Constructors *)






(** ** The result channel *)

(** The Watcher itself never touches the result channel. *)
Lemma step_no_send l s l' out :
  step l s = Next l' out → count isResSend out = 0 ∧ count isResClose out = 0.
Proof.
  intros H. destruct l as [[rl fw st] o r km cm kr cr rn].
  destruct s as [[path op|[kp|err]|[ca|err]|err|]|];
    unfold step, iteration, Stop in H; simpl in H.
  1-7: destruct rn; simpl in H; [|done].
  - destruct (bool_decide (path ∈ km)), (bool_decide (path ∈ cm)), kr, cr;
      by simplify_eq.
  - destruct kr; [|done]. simpl in H.
    match type of H with context [Ready ?x] => destruct (Ready x) end;
      unfold markReady in H; destruct o, r; simpl in H; by simplify_eq.
  - destruct kr; [|done]. by simplify_eq.
  - destruct cr; [|done]. simpl in H.
    match type of H with context [Ready ?x] => destruct (Ready x) end;
      unfold markReady in H; destruct o, r; simpl in H; by simplify_eq.
  - destruct cr; [|done]. by simplify_eq.
  - by simplify_eq.
  - destruct st; by simplify_eq.
  - destruct st; simpl in H; by simplify_eq.
Qed.

Lemma futureStep_inv f s f' out :
  futureInv f → futureStep f s = Next f' out →
  futureInv f'
  ∧ (ready (loop f) = Closed → ready (loop f') = Closed)
  ∧ (pc f' = AtSend → pc f = AtSend ∨ ready (loop f') = Closed)
  ∧ (pc f ≠ AtSend → count isResSend out = 0).
Proof.
  intros [Hc Hres] H. destruct f as [l p r]. simpl in Hc, Hres.
  unfold futureInv. destruct s as [st| | |]; simpl in H.
  - destruct (step l st) as [| |l1 o1] eqn:Hs; simplify_eq.
    destruct (step_Next _ _ _ _ Hc Hs) as (Hc1 & _).
    destruct (step_readiness _ _ _ _ Hc Hs) as (_ & Hr & _).
    destruct (step_no_send _ _ _ _ Hs) as [Hn _].
    simpl. split_and!; try done; [by intros; apply Hr; left | by left].
  - destruct p, (ready l) eqn:Hr; simplify_eq. simpl. split_and!; try done.
    by right.
  - destruct p, (stop (watcher l)); simplify_eq.
    unfold closeRes in H. simpl in H. by simplify_eq.
  - destruct p; simplify_eq. unfold closeRes in H. simpl in H.
    simplify_eq. simpl. split_and!; try done.
Qed.

Lemma runFuture_inv f tr f' out :
  futureInv f → runFuture f tr = Next f' out →
  futureInv f' ∧ (ready (loop f) = Closed → ready (loop f') = Closed).
Proof.
  unfold runFuture. revert f out.
  induction tr as [|s tr IH]; intros f out Hinv H.
  - simpl in H. by simplify_eq.
  - apply runWith_cons_inv in H as (f1 & o1 & o2 & H1 & H2 & ->).
    destruct (futureStep_inv _ _ _ _ Hinv H1) as (Hinv1 & Hm & _).
    destruct (IH _ _ Hinv1 H2) as (? & ?). auto.
Qed.




(** * Further properties *)

(** ** The files handed to the event source *)

Lemma foldl_append_filter (paths acc : list string) :
  foldl (λ acc path, if negb (path =? "") then append acc path else acc)
        acc paths
  = (acc ++ List.filter nonEmpty paths)%list.
Proof.
  revert acc. induction paths as [|q paths IH]; intros acc; simpl.
  - by rewrite app_nil_r.
  - rewrite IH. unfold nonEmpty, append. destruct (negb (q =? "")); [|done].
    by rewrite <- app_assoc.
Qed.

(** X1: [newFsWatcher] asks the event source to track the certificate, the
    key and the CA files, in that order, leaving out the empty paths and
    nothing else: a path listed twice is tracked twice. It fails exactly
    when [fswatcher.New] does, with its error. *)
Theorem newFsWatcher_tracks env ca cert key :
  trackedFiles ca cert key = List.filter nonEmpty (cert :: key :: ca)
  ∧ ("" ∉ trackedFiles ca cert key)
  ∧ match newFsWatcher env ca cert key with
    | inl fsw =>
        fswatcherErr env = None
        ∧ trackFiles fsw = List.filter nonEmpty (cert :: key :: ca)
        ∧ released fsw = false
    | inr err => fswatcherErr env = Some err
    end.
Proof.
  assert (trackedFiles ca cert key = List.filter nonEmpty (cert :: key :: ca))
    as Heq.
  { unfold trackedFiles. rewrite foldl_append_filter. simpl.
    unfold nonEmpty, append. by destruct (negb (cert =? "")), (negb (key =? "")). }
  split_and!; [done | |].
  - rewrite elem_of_trackedFiles. tauto.
  - unfold newFsWatcher, fswatcher_New. rewrite Heq.
    by destruct (fswatcherErr env).
Qed.

(** X2: for a Watcher from either constructor, the paths in the two maps are
    the tracked files, plus the empty path when it is listed as a CA file: an
    empty CA path is in [caMap] although the event source never watches it,
    and the empty path is never in [keypairMap]. *)
Theorem classified_paths_tracked l env ca cert key :
  builtBy l env ca cert key →
  (∀ p, p ∈ keypairMap l ∨ p ∈ caMap l ↔
        p ∈ trackFiles (fswatcher (watcher l)) ∨ (p = "" ∧ "" ∈ ca))
  ∧ ("" ∉ keypairMap l)
  ∧ ("" ∈ caMap l ↔ "" ∈ ca)
  ∧ ("" ∉ trackFiles (fswatcher (watcher l))).
Proof.
  intros (HW & Htrack & Hca & Hcert & Hkey & _)%builtBy_Watch.
  assert (keypairMap l = buildKeypairMap (storeOf l)) as Hkm by (by rewrite HW).
  assert (caMap l = buildCaMap (storeOf l)) as Hcm by (by rewrite HW).
  rewrite Htrack, Hkm, Hcm. split_and!.
  - intros p. rewrite elem_of_trackedFiles, elem_of_buildKeypairMap,
      elem_of_buildCaMap, Hca, Hcert, Hkey.
    destruct (decide (p = "")) as [->|Hne]; intuition congruence.
  - rewrite elem_of_buildKeypairMap. intuition congruence.
  - by rewrite elem_of_buildCaMap, Hca.
  - rewrite elem_of_trackedFiles. tauto.
Qed.

Lemma classified_paths_tracked_witness :
  ∃ l,
    NewWatcher demoEnv demoEmptyCA "tls.crt" "tls.key" = inl l
    ∧ ("" ∈ caMap l)
    ∧ ("" ∉ trackFiles (fswatcher (watcher l)))
    ∧ trackFiles (fswatcher (watcher l))
      = ["tls.crt"; "tls.key"; "ca.crt"; "ca.crt"].
Proof.
  destruct (NewWatcher demoEnv demoEmptyCA "tls.crt" "tls.key") as [l|] eqn:H;
    [|by vm_compute in H].
  exists l. split; [done|].
  destruct (classified_paths_tracked l demoEnv demoEmptyCA "tls.crt" "tls.key")
    as (_ & _ & Hin & Hout); [by left|].
  split_and!; [apply Hin; compute_done | done |].
  vm_compute in H. by simplify_eq.
Defined.

(** ** Timers and reloads *)

Lemma step_timers r l s l' out :
  step l s = Next l' out →
  count (isTimeAfter r) out + armedN r l = count (isReload r) out + armedN r l'
  ∧ (count (isTimeAfter r) out ≤ if isNotification s then 1 else 0)%nat
  ∧ (timerOf r l' = None ∨ timerOf r l' = Some watcherEventCoalesceWindow
     ∨ timerOf r l' = timerOf r l).
Proof.
  intros H. destruct l as [[rl fw st] o rd km cm kr cr rn]. unfold armedN.
  destruct s as [[path op|[kp|err]|[ca|err]|err|]|];
    unfold step, iteration, Stop in H; simpl in H.
  1-7: destruct rn; simpl in H; [|done].
  - destruct (bool_decide (path ∈ km)), (bool_decide (path ∈ cm)), kr, cr;
      simplify_eq; destruct r; simpl; unfold count; simpl; split_and!;
      (lia || auto).
  - destruct kr; [|done]. simpl in H.
    match type of H with context [Ready ?x] => destruct (Ready x) end;
      unfold markReady in H; destruct o, rd; simpl in H; simplify_eq;
      destruct r, cr; simpl; unfold count; simpl; split_and!; (lia || auto).
  - destruct kr; [|done]. simplify_eq.
    destruct r, cr; simpl; unfold count; simpl; split_and!; (lia || auto).
  - destruct cr; [|done]. simpl in H.
    match type of H with context [Ready ?x] => destruct (Ready x) end;
      unfold markReady in H; destruct o, rd; simpl in H; simplify_eq;
      destruct r, kr; simpl; unfold count; simpl; split_and!; (lia || auto).
  - destruct cr; [|done]. simplify_eq.
    destruct r, kr; simpl; unfold count; simpl; split_and!; (lia || auto).
  - simplify_eq. destruct r, kr, cr; simpl; unfold count; simpl; split_and!;
      (lia || auto).
  - destruct st; simplify_eq.
    destruct r, kr, cr; simpl; unfold count; simpl; split_and!; (lia || auto).
  - destruct st; simpl in H; simplify_eq;
      destruct r, kr, cr; simpl; unfold count; simpl; split_and!; (lia || auto).
Qed.

(** X3: in every run of the loop started by [Watch], for each role, every
    [time.After] is matched by the reload made when it fires, except the one
    that is still pending: the timers armed are the reloads made plus the
    pending timer, if any. So a role is never reloaded without a notification
    before it, no more often than notifications arrived, and it has at most
    one timer pending, always of the coalescing window. *)
Theorem timers_match_reloads w tr l out r :
  run (Watch w) tr = Next l out →
  count (isTimeAfter r) out = count (isReload r) out + armedN r l
  ∧ (count (isReload r) out ≤ count (isTimeAfter r) out)%nat
  ∧ (count (isTimeAfter r) out ≤ length (List.filter isNotification tr))%nat
  ∧ (timerOf r l = None ∨ timerOf r l = Some watcherEventCoalesceWindow).
Proof.
  assert (∀ tr l0 l out,
            run l0 tr = Next l out →
            count (isTimeAfter r) out + armedN r l0
            = count (isReload r) out + armedN r l
            ∧ (count (isTimeAfter r) out
               ≤ length (List.filter isNotification tr))%nat
            ∧ (timerOf r l0 = None
               ∨ timerOf r l0 = Some watcherEventCoalesceWindow →
               timerOf r l = None
               ∨ timerOf r l = Some watcherEventCoalesceWindow)) as Hgen.
  { clear. induction tr as [|s tr IH]; intros l0 l out H.
    - unfold run in H. simpl in H. simplify_eq. unfold count. simpl.
      split_and!; [lia | lia | done].
    - unfold run in H.
      apply runWith_cons_inv in H as (l1 & o1 & o2 & H1 & H2 & ->).
      destruct (step_timers r _ _ _ _ H1) as (He & Hn & Hw).
      destruct (IH _ _ _ H2) as (He' & Hn' & Hw').
      rewrite !count_app. simpl.
      split_and!; [lia | destruct (isNotification s); simpl; lia |].
      intros Hw0. apply Hw'. destruct Hw as [?|[?|Hsame]]; auto.
      by rewrite Hsame. }
  intros H. destruct (Hgen _ _ _ _ H) as (He & Hn & Hw).
  unfold armedN in He at 1. simpl in He.
  assert (timerOf r (Watch w) = None) as H0 by (by destruct r).
  rewrite H0 in He. split_and!; [lia | lia | done | apply Hw; by left].
Qed.

Lemma timers_match_reloads_witness :
  ∃ l out,
    run (Watch (demoWatcher None None)) demoRotation = Next l out
    ∧ count (isTimeAfter RoleCA) out = 2 ∧ count (isReload RoleCA) out = 2
    ∧ caReload l = None.
Proof.
  destruct (run (Watch (demoWatcher None None)) demoRotation) as [| |l out] eqn:H;
    [by vm_compute in H | by vm_compute in H |].
  exists l, out. split; [done|].
  destruct (timers_match_reloads _ _ _ _ RoleCA H) as (He & _).
  assert (count (isReload RoleCA) out = 2 ∧ caReload l = None) as [Hr Ht]
    by (vm_compute in H; by simplify_eq).
  split_and!; [|done..]. rewrite He, Hr. unfold armedN. simpl. by rewrite Ht.
Defined.

(** ** Leaving the loop *)

Lemma step_exit l s l' out :
  step l s = Next l' out →
  (running l' = false ↔ running l = false ∨ s = Select StopSeen)
  ∧ released (fswatcher (watcher l'))
    = released (fswatcher (watcher l))
      || (running l && negb (running l'))
  ∧ (stop (watcher l) = Closed → stop (watcher l') = Closed)
  ∧ (s = Select StopSeen → stop (watcher l) = Closed).
Proof.
  intros H. destruct l as [[rl [tf rel] st] o rd km cm kr cr rn].
  destruct s as [[path op|[kp|err]|[ca|err]|err|]|];
    unfold step, iteration, Stop in H; simpl in H.
  1-7: destruct rn; simpl in H; [|done].
  - destruct (bool_decide (path ∈ km)), (bool_decide (path ∈ cm)), kr, cr;
      simplify_eq; simpl; rewrite ?orb_false_r; split_and!; try done;
      intuition congruence.
  - destruct kr; [|done]. simpl in H.
    match type of H with context [Ready ?x] => destruct (Ready x) end;
      unfold markReady in H; destruct o, rd; simpl in H; simplify_eq; simpl;
      rewrite ?orb_false_r; split_and!; try done; intuition congruence.
  - destruct kr; [|done]. simplify_eq; simpl.
    rewrite ?orb_false_r; split_and!; try done; intuition congruence.
  - destruct cr; [|done]. simpl in H.
    match type of H with context [Ready ?x] => destruct (Ready x) end;
      unfold markReady in H; destruct o, rd; simpl in H; simplify_eq; simpl;
      rewrite ?orb_false_r; split_and!; try done; intuition congruence.
  - destruct cr; [|done]. simplify_eq; simpl.
    rewrite ?orb_false_r; split_and!; try done; intuition congruence.
  - simplify_eq; simpl.
    rewrite ?orb_false_r; split_and!; try done; intuition congruence.
  - destruct st; simplify_eq; simpl.
    rewrite ?orb_true_r; split_and!; try done; intuition congruence.
  - destruct st; simpl in H; simplify_eq; simpl; destruct rn; simpl;
      rewrite ?orb_false_r; split_and!; try done; intuition congruence.
Qed.

Lemma run_exit l0 tr l out :
  run l0 tr = Next l out →
  (running l = false ↔ running l0 = false ∨ Select StopSeen ∈ tr)
  ∧ (running l0 = true →
     released (fswatcher (watcher l))
     = released (fswatcher (watcher l0)) || negb (running l))
  ∧ (stop (watcher l0) = Closed → stop (watcher l) = Closed)
  ∧ (Select StopSeen ∈ tr → stop (watcher l) = Closed).
Proof.
  revert l0 out. induction tr as [|s tr IH]; intros l0 out H.
  - unfold run in H. simpl in H. simplify_eq. rewrite elem_of_nil.
    split_and!; [tauto | | done | done].
    intros ->. by rewrite orb_false_r.
  - unfold run in H.
    apply runWith_cons_inv in H as (l1 & o1 & o2 & H1 & H2 & ->).
    destruct (step_exit _ _ _ _ H1) as (Hr & Hrel & Hst & Hseen).
    destruct (IH _ _ H2) as (Hr' & Hrel' & Hst' & Hseen').
    rewrite elem_of_cons. split_and!.
    + rewrite Hr', Hr. intuition congruence.
    + intros Hrun0. rewrite Hrun0 in Hrel. simpl in Hrel.
      destruct (running l1) eqn:Hrun1.
      * rewrite Hrel' by done. rewrite Hrel. simpl. by rewrite orb_false_r.
      * assert (running l = false) as -> by (apply Hr'; by left). simpl.
        assert (released (fswatcher (watcher l)) = true) as ->; [|by rewrite orb_true_r].
        clear -H2 Hrun1 Hrel. simpl in Hrel. rewrite orb_true_r in Hrel.
        revert l1 o2 H2 Hrun1 Hrel.
        induction tr as [|s' tr IHt]; intros l1 o2 H2 Hrun1 Hrel.
        -- simpl in H2. by simplify_eq.
        -- apply runWith_cons_inv in H2 as (l2 & o3 & o4 & H3 & H4 & ->).
           destruct (step_exit _ _ _ _ H3) as (Hr2 & Hrel2 & _).
           eapply IHt; [exact H4 | apply Hr2; by left |].
           by rewrite Hrel2, Hrel.
    + auto.
    + intros [<-|Hin]; [by apply Hst', Hst, Hseen | by apply Hseen'].
Qed.

(** X4: the loop started by [Watch] returns in one way only, by taking its
    stop case: after any run it has returned exactly when that case was
    taken, whatever errors, failed reloads and unknown paths it met; the
    event source is released exactly when the loop has returned, and the stop
    channel is then closed. *)
Theorem loop_returns_only_on_stop w tr l out :
  run (Watch w) tr = Next l out →
  (running l = false ↔ Select StopSeen ∈ tr)
  ∧ released (fswatcher (watcher l))
    = released (fswatcher w) || negb (running l)
  ∧ (running l = false → stop (watcher l) = Closed).
Proof.
  intros H. destruct (run_exit _ _ _ _ H) as (Hr & Hrel & _ & Hseen).
  simpl in Hr, Hrel. split_and!.
  - rewrite Hr. intuition congruence.
  - by apply Hrel.
  - intros Hf. apply Hr in Hf as [Hf|Hf]; [done | by apply Hseen].
Qed.

Lemma loop_returns_only_on_stop_witness :
  ∃ l out,
    run (Watch (demoWatcher None None))
        [Select (FsError "inotify: queue overflow");
         Select (FsEvent "tls.crt" Write);
         Select (KeypairTimer (LoadFailed "tls: failed to find any PEM data"));
         Select (FsEvent "notes.txt" Create)]
    = Next l out
    ∧ running l = true ∧ released (fswatcher (watcher l)) = false.
Proof.
  destruct (run (Watch (demoWatcher None None))
              [Select (FsError "inotify: queue overflow");
               Select (FsEvent "tls.crt" Write);
               Select (KeypairTimer (LoadFailed "tls: failed to find any PEM data"));
               Select (FsEvent "notes.txt" Create)]) as [| |l out] eqn:H;
    [by vm_compute in H | by vm_compute in H |].
  exists l, out. split; [done|].
  destruct (loop_returns_only_on_stop _ _ _ _ H) as (Hr & Hrel & _).
  assert (running l = true) as Hrun.
  { destruct (running l); [done|]. exfalso.
    destruct Hr as [Hr _]. specialize (Hr eq_refl). revert Hr.
    rewrite !elem_of_cons, elem_of_nil. intuition discriminate. }
  split; [done|]. by rewrite Hrel, Hrun.
Defined.

Lemma returned_run l0 tr l out :
  running l0 = false → stop (watcher l0) = Closed →
  run l0 tr = Next l out →
  l = l0 ∧ out = [] ∧ Forall (λ s, s = CallStop) tr.
Proof.
  intros Hrun Hstop. induction tr as [|s tr IH] in out |- *; intros H.
  - unfold run in H. simpl in H. by simplify_eq.
  - rewrite run_cons in H. destruct s as [c|].
    + by rewrite exited_blocked in H.
    + simpl in H. unfold Stop in H. rewrite Hstop in H.
      assert (withWatcher (watcher l0) l0 = l0) as Hsame
        by (by destruct l0).
      rewrite Hsame in H. simpl in H.
      destruct (run l0 tr) as [| |l1 o1] eqn:Hr; simpl in H; simplify_eq.
      destruct (IH _ eq_refl) as (-> & -> & Hall). split_and!; try done.
      by constructor.
Qed.

(** X5: the stop case is the last thing the loop does. In a run in which it
    is taken, the loop was running until then, it logs, releases the event
    source and returns with everything else as it was: a timer that is armed
    is abandoned, with no reload; and all that can follow are calls of [Stop],
    which change nothing and have no effect. *)
Theorem nothing_after_return w pre post l out :
  run (Watch w) (pre ++ Select StopSeen :: post) = Next l out →
  ∃ l1 out1,
    run (Watch w) pre = Next l1 out1
    ∧ running l1 = true ∧ stop (watcher l1) = Closed
    ∧ l = exitLoop l1
    ∧ out = (out1 ++ [Log Info "Stopping fswatcher" ""; FswClose])%list
    ∧ keypairReload l = keypairReload l1 ∧ caReload l = caReload l1
    ∧ Forall (λ s, s = CallStop) post.
Proof.
  unfold run. rewrite runWith_app. fold run.
  destruct (run (Watch w) pre) as [| |l1 out1] eqn:Hpre; [done | done |].
  intros (o2 & H & ->)%emit_Next_inv. rewrite run_cons in H.
  simpl in H. unfold iteration in H.
  destruct (running l1) eqn:Hrun1; simpl in H; [|done].
  destruct (stop (watcher l1)) eqn:Hstop1; [done|].
  apply emit_Next_inv in H as (o3 & H & ->).
  apply returned_run in H as (-> & -> & Hall); [|done|by simpl].
  exists l1, out1. by split_and!.
Qed.

Lemma nothing_after_return_witness :
  ∃ l out,
    run (Watch (demoWatcher None None))
        ([CallStop; Select (FsEvent "tls.crt" Write)]
         ++ Select StopSeen :: [CallStop])
    = Next l out
    ∧ keypairReload l = Some watcherEventCoalesceWindow
    ∧ count (isReload RoleKeypair) out = 0.
Proof.
  destruct (run (Watch (demoWatcher None None))
              ([CallStop; Select (FsEvent "tls.crt" Write)]
               ++ Select StopSeen :: [CallStop])) as [| |l out] eqn:H;
    [by vm_compute in H | by vm_compute in H |].
  exists l, out. split; [done|].
  destruct (nothing_after_return _ _ _ _ _ H)
    as (l1 & out1 & Hpre & _ & _ & _ & -> & Hk & _).
  vm_compute in Hpre. simplify_eq. by rewrite Hk.
Defined.

(** ** Bursts for both roles *)

Lemma handledAsb_spec r l path : handledAsb r l path = true ↔ handledAs r l path.
Proof.
  destruct r; simpl.
  - by rewrite bool_decide_eq_true.
  - rewrite andb_true_iff, negb_true_iff, bool_decide_eq_false,
      bool_decide_eq_true. tauto.
Qed.

Lemma existsb_handledAsb r l (evs : list (string * Op)) :
  existsb (λ e, handledAsb r l e.1) evs = true
  ↔ Exists (λ e, handledAs r l e.1) evs.
Proof.
  rewrite existsb_exists, Exists_exists. split.
  - intros (e & Hin%list_elem_of_In & He%handledAsb_spec). eauto.
  - intros (e & Hin%list_elem_of_In & He%handledAsb_spec). eauto.
Qed.

Lemma existsb_same {A : Type} (f g : A → bool) (xs : list A) :
  (∀ x, f x = g x) → existsb f xs = existsb g xs.
Proof. intros Hfg. induction xs as [|x xs IH]; simpl; [done|]. by rewrite Hfg, IH. Qed.

Lemma notification_step l path op :
  running l = true →
  ∃ l' out,
    step l (Select (FsEvent path op)) = Next l' out
    ∧ running l' = true
    ∧ keypairMap l' = keypairMap l ∧ caMap l' = caMap l
    ∧ once l' = once l ∧ ready l' = ready l
    ∧ ∀ r,
        count (isReload r) out = 0
        ∧ timerOf r l' = afterBurst r l (handledAsb r l path)
        ∧ count (isTimeAfter r) out
          = match timerOf r l with
            | Some _ => 0
            | None => if handledAsb r l path then 1 else 0
            end.
Proof.
  intros Hrun. destruct l as [w o rd km cm kr cr rn]. simpl in Hrun. subst rn.
  unfold step, iteration, afterBurst, handledAsb. simpl.
  destruct (bool_decide (path ∈ km)), (bool_decide (path ∈ cm)), kr, cr;
    simpl; eexists _, _; (split; [reflexivity|]); simpl;
    split_and!; try done; intros []; by simpl.
Qed.

Lemma notifications_run l (evs : list (string * Op)) :
  running l = true →
  ∃ l' out,
    run l (notify <$> evs) = Next l' out
    ∧ running l' = true
    ∧ once l' = once l ∧ ready l' = ready l
    ∧ ∀ r,
        count (isReload r) out = 0
        ∧ timerOf r l' = afterBurst r l (existsb (λ e, handledAsb r l e.1) evs)
        ∧ count (isTimeAfter r) out
          = match timerOf r l with
            | Some _ => 0
            | None => if existsb (λ e, handledAsb r l e.1) evs then 1 else 0
            end.
Proof.
  revert l. induction evs as [|[path op] evs IH]; intros l Hrun.
  - exists l, []. unfold afterBurst. split_and!; try done.
    intros r. split_and!; try done; by destruct (timerOf r l).
  - destruct (notification_step l path op Hrun)
      as (l1 & o1 & Hs & Hrun1 & Hkm & Hcm & Hon & Hrd & Hro).
    destruct (IH l1 Hrun1) as (l2 & o2 & Hr & Hrun2 & Hon2 & Hrd2 & Hro2).
    exists l2, (o1 ++ o2)%list. rewrite fmap_cons, run_cons.
    unfold notify at 1. simpl fst. simpl snd. rewrite Hs, Hr.
    split_and!; [done | done | congruence | congruence |].
    intros r. destruct (Hro r) as (Hc1 & Ht1 & Hn1).
    destruct (Hro2 r) as (Hc2 & Ht2 & Hn2).
    assert (∀ p, handledAsb r l1 p = handledAsb r l p) as Hsame
      by (intros p; unfold handledAsb; by rewrite Hkm, Hcm).
    rewrite !count_app, Hc1, Hc2, Hn1, Hn2, Ht2. simpl.
    rewrite (existsb_same (λ e, handledAsb r l1 e.1) (λ e, handledAsb r l e.1))
      by (intros e; apply Hsame).
    unfold afterBurst in *. rewrite Ht1.
    destruct (timerOf r l), (handledAsb r l path),
      (existsb (λ e, handledAsb r l e.1) evs); by simpl.
Qed.

Lemma timer_fires_frame r l c :
  consistent l → running l = true → isLoaded (timerOf r l) = true →
  timerCase r c →
  ∃ l' out,
    step l (Select c) = Next l' out
    ∧ consistent l' ∧ running l' = true
    ∧ ∀ r',
        count (isTimeAfter r') out = 0
        ∧ count (isReload r') out = (if sameRole r' r then 1 else 0)
        ∧ timerOf r' l' = (if sameRole r' r then None else timerOf r' l).
Proof.
  intros Hc Hrun Ht Hcase. destruct l as [[rl fw st] o rd km cm kr cr rn].
  unfold consistent in Hc. simpl in Hc, Hrun. subst rn.
  destruct r, c as [| [kp|err] | [ca|err] | |]; simpl in Hcase, Ht; try done;
    simpl; unfold iteration; simpl.
  - destruct kr; [|done]. simpl.
    match goal with |- context [Ready ?x] => destruct (Ready x) end;
      unfold markReady; destruct o, rd; simplify_eq; simpl;
      eexists _, _; (split; [reflexivity|]); (split; [done|]);
      (split; [done|]); intros []; by simpl.
  - destruct kr; [|done]. simpl.
    eexists _, _; (split; [reflexivity|]); (split; [done|]);
      (split; [done|]); intros []; by simpl.
  - destruct cr; [|done]. simpl.
    match goal with |- context [Ready ?x] => destruct (Ready x) end;
      unfold markReady; destruct o, rd; simplify_eq; simpl;
      eexists _, _; (split; [reflexivity|]); (split; [done|]);
      (split; [done|]); intros []; by simpl.
  - destruct cr; [|done]. simpl.
    eexists _, _; (split; [reflexivity|]); (split; [done|]);
      (split; [done|]); intros []; by simpl.
Qed.

(** X6: the two roles are coalesced independently. After a burst of
    notifications in any order, of which at least one is handled in the
    keypair branch and one in the CA branch, with no timer armed before, both
    timers are armed once; when they fire, in either order, each role is
    reloaded once, and no timer is left armed. *)
Theorem mixed_burst_one_reload_each l (evs : list (string * Op)) r1 c1 r2 c2 :
  consistent l → running l = true →
  keypairReload l = None → caReload l = None →
  Exists (λ e, handledAs RoleKeypair l e.1) evs →
  Exists (λ e, handledAs RoleCA l e.1) evs →
  r1 ≠ r2 → timerCase r1 c1 → timerCase r2 c2 →
  ∃ l' out,
    run l ((notify <$> evs) ++ [Select c1; Select c2]) = Next l' out
    ∧ running l' = true
    ∧ ∀ r,
        count (isTimeAfter r) out = 1 ∧ count (isReload r) out = 1
        ∧ timerOf r l' = None.
Proof.
  intros Hc Hrun Hk0 Ha0 Hkp%existsb_handledAsb Hca%existsb_handledAsb
    Hne Hc1 Hc2.
  destruct (notifications_run l evs Hrun)
    as (l1 & o1 & Hr1 & Hrun1 & Hon & Hrd & Hro).
  assert (consistent l1) as Hcons1
    by (unfold consistent in *; by rewrite Hon, Hrd).
  assert (∀ r, count (isReload r) o1 = 0
               ∧ timerOf r l1 = Some watcherEventCoalesceWindow
               ∧ count (isTimeAfter r) o1 = 1) as Hro1.
  { intros r. destruct (Hro r) as (? & Ht & Hn). unfold afterBurst in Ht.
    destruct r; simpl in *; rewrite ?Hk0, ?Ha0, ?Hkp, ?Hca in *; done. }
  destruct (timer_fires_frame r1 l1 c1 Hcons1 Hrun1)
    as (l2 & o2 & Hs2 & Hcons2 & Hrun2 & Hro2);
    [by destruct (Hro1 r1) as (_ & -> & _) | done |].
  assert (timerOf r2 l2 = Some watcherEventCoalesceWindow) as Ht2.
  { destruct (Hro2 r2) as (_ & _ & ->). destruct (Hro1 r2) as (_ & -> & _).
    by destruct r1, r2. }
  destruct (timer_fires_frame r2 l2 c2 Hcons2 Hrun2)
    as (l3 & o3 & Hs3 & _ & Hrun3 & Hro3); [by rewrite Ht2 | done |].
  exists l3, (o1 ++ o2 ++ o3)%list. unfold run in *.
  rewrite runWith_app, Hr1. simpl in Hs2, Hs3 |- *. rewrite Hs2. simpl.
  rewrite Hs3. simpl. rewrite app_nil_r.
  split_and!; [done | done |]. intros r.
  destruct (Hro1 r) as (Hx1 & Hy1 & Hz1), (Hro2 r) as (Hx2 & Hy2 & Hz2),
    (Hro3 r) as (Hx3 & Hy3 & Hz3).
  rewrite !count_app, Hx1, Hx2, Hx3, Hy2, Hy3, Hz1, Hz3, Hz2, Hy1.
  destruct r, r1, r2; simpl; try done.
Qed.

Lemma mixed_burst_one_reload_each_witness :
  ∃ l out,
    run (Watch (demoWatcher None None))
        ((notify <$> [("ca.crt", Create); ("tls.key", Write);
                      ("ca.crt", Write); ("tls.crt", Write)])
         ++ [Select (CATimer (Loaded demoPool));
             Select (KeypairTimer (Loaded demoKeypair))])
    = Next l out
    ∧ count (isReload RoleKeypair) out = 1 ∧ count (isReload RoleCA) out = 1.
Proof.
  destruct (mixed_burst_one_reload_each (Watch (demoWatcher None None))
              [("ca.crt", Create); ("tls.key", Write);
               ("ca.crt", Write); ("tls.crt", Write)]
              RoleCA (CATimer (Loaded demoPool))
              RoleKeypair (KeypairTimer (Loaded demoKeypair)))
    as (l & out & H & _ & Hall);
    [reflexivity | reflexivity | reflexivity | reflexivity
    | apply Exists_cons_tl, Exists_cons_hd; compute_done
    | apply Exists_cons_hd; split; compute_done
    | discriminate | exact I | exact I |].
  exists l, out. split; [done|].
  destruct (Hall RoleKeypair) as (_ & ? & _), (Hall RoleCA) as (_ & ? & _).
  done.
Defined.

(** ** Steps that are only logged *)

Lemma actions_app (a b : list Effect) :
  actions (a ++ b) = (actions a ++ actions b)%list.
Proof. apply List.filter_app. Qed.

Lemma noise_step l s l' out :
  noise l s = true → step l s = Next l' out → l' = l ∧ actions out = [].
Proof.
  destruct s as [[path op| | |err|]|]; simpl; try done; unfold iteration;
    destruct (running l); simpl; try done.
  - intros [Hk Hc]%andb_true_iff.
    apply negb_true_iff in Hk, Hc. rewrite Hk, Hc. intros H. by simplify_eq.
  - intros _ H. by simplify_eq.
Qed.

Lemma noise_maps l l' s :
  keypairMap l' = keypairMap l → caMap l' = caMap l → noise l' s = noise l s.
Proof. intros Hk Hc. unfold noise. by rewrite Hk, Hc. Qed.

Lemma run_without_noise l0 tr l out :
  consistent l0 → run l0 tr = Next l out →
  ∃ out',
    run l0 (List.filter (λ s, negb (noise l0 s)) tr) = Next l out'
    ∧ actions out' = actions out.
Proof.
  revert l0 out. induction tr as [|s tr IH]; intros l0 out Hc H.
  - exists out. by simpl.
  - unfold run in H.
    apply runWith_cons_inv in H as (l1 & o1 & o2 & H1 & H2 & ->).
    destruct (step_Next _ _ _ _ Hc H1) as (Hc1 & Hkm & Hcm).
    destruct (IH _ _ Hc1 H2) as (out' & Hr & Ha).
    rewrite (List.filter_ext _ (λ s, negb (noise l0 s))) in Hr
      by (intros s'; by rewrite (noise_maps l0 l1)).
    simpl. rewrite actions_app. destruct (noise l0 s) eqn:Hn; simpl.
    + destruct (noise_step _ _ _ _ Hn H1) as [-> ->]. by exists out'.
    + exists (o1 ++ out')%list. rewrite run_cons, H1, Hr. simpl.
      by rewrite actions_app, Ha.
Qed.

(** X7: errors of the event source and notifications for paths in neither
    map have no influence on what the Watcher does: dropping them from a run
    gives a run that ends in the same state and makes the same timer, reload
    and channel operations in the same order; only log lines differ. *)
Theorem noise_only_logged w tr l out :
  run (Watch w) tr = Next l out →
  ∃ out',
    run (Watch w) (List.filter (λ s, negb (noise (Watch w) s)) tr) = Next l out'
    ∧ actions out' = actions out.
Proof. apply run_without_noise, Watch_consistent. Qed.

Lemma noise_only_logged_witness :
  ∃ l out out',
    run (Watch (demoWatcher None None))
        [Select (FsError "inotify: queue overflow");
         Select (FsEvent "ca.crt" Write);
         Select (FsEvent "ca.crt.swp" Create);
         Select (CATimer (Loaded demoPool))]
    = Next l out
    ∧ run (Watch (demoWatcher None None))
          [Select (FsEvent "ca.crt" Write); Select (CATimer (Loaded demoPool))]
      = Next l out'
    ∧ actions out' = actions out.
Proof.
  destruct (run (Watch (demoWatcher None None))
              [Select (FsError "inotify: queue overflow");
               Select (FsEvent "ca.crt" Write);
               Select (FsEvent "ca.crt.swp" Create);
               Select (CATimer (Loaded demoPool))]) as [| |l out] eqn:H;
    [by vm_compute in H | by vm_compute in H |].
  destruct (noise_only_logged _ _ _ _ H) as (out' & Hr & Ha).
  by exists l, out, out'.
Defined.

(** ** The result channel of FutureWatcher *)

Lemma futureStep_no_crash f s msg : futureInv f → futureStep f s ≠ Crash msg.
Proof.
  intros [Hc Hres] H. destruct f as [l p r]. simpl in Hc, Hres.
  destruct s as [st| | |]; simpl in H.
  - destruct (step l st) eqn:Hs; simplify_eq. by apply step_no_crash in Hs.
  - by destruct p, (ready l).
  - destruct p, (stop (watcher l)); simplify_eq.
  - destruct p; simplify_eq.
Qed.

Lemma futureStep_counts f s f' out :
  futureInv f → futureStep f s = Next f' out →
  finishedN f' = finishedN f + count isResClose out
  ∧ (count isResSend out ≤ count isResClose out)%nat.
Proof.
  intros [Hc Hres] H. destruct f as [l p r]. simpl in Hc, Hres.
  unfold finishedN. destruct s as [st| | |]; simpl in H.
  - destruct (step l st) as [| |l1 o1] eqn:Hs; simplify_eq.
    destruct (step_no_send _ _ _ _ Hs) as [-> ->]. simpl.
    destruct p; simpl; lia.
  - destruct p, (ready l); simplify_eq. unfold count. simpl. lia.
  - destruct p, (stop (watcher l)); simplify_eq.
    unfold closeRes in H. simpl in H. simplify_eq. unfold count. simpl. lia.
  - destruct p; simplify_eq. unfold closeRes in H. simpl in H.
    simplify_eq. unfold count. simpl. lia.
Qed.

Lemma runFuture_counts (E : Prop) f tr f' out :
  futureInv f → (pc f = AtSend → E ∨ ready (loop f) = Closed) →
  runFuture f tr = Next f' out →
  finishedN f' = finishedN f + count isResClose out
  ∧ (count isResSend out ≤ count isResClose out)%nat
  ∧ (1 ≤ count isResSend out → E ∨ ready (loop f') = Closed)%nat.
Proof.
  revert f out. induction tr as [|s tr IH]; intros f out Hinv Hsend H.
  - unfold runFuture in H. simpl in H. simplify_eq. unfold count. simpl.
    split_and!; lia.
  - pose proof H as Hall. unfold runFuture in H.
    apply runWith_cons_inv in H as (f1 & o1 & o2 & H1 & H2 & ->).
    destruct (futureStep_inv _ _ _ _ Hinv H1) as (Hinv1 & Hm & Hs & Hn).
    destruct (futureStep_counts _ _ _ _ Hinv H1) as (Hf & Hle).
    destruct (runFuture_inv _ _ _ _ Hinv1 H2) as (_ & Hm2).
    assert (pc f1 = AtSend → E ∨ ready (loop f1) = Closed) as Hsend1.
    { intros [Hp|?]%Hs; [|by right]. destruct (Hsend Hp); auto. }
    destruct (IH _ _ Hinv1 Hsend1 H2) as (Hf' & Hle' & Hs').
    rewrite !count_app. split_and!; [lia | lia |].
    intros Hge. destruct (decide (count isResSend o1 = 0)) as [H0|H0].
    + apply Hs'. lia.
    + assert (pc f = AtSend) as Hp.
      { destruct (pc f) eqn:Hp; [done | | ]; exfalso; apply H0, Hn; congruence. }
      destruct (Hsend Hp); auto.
Qed.

Lemma runFuture_no_crash f tr msg : futureInv f → runFuture f tr ≠ Crash msg.
Proof.
  revert f. induction tr as [|s tr IH]; intros f Hinv; [done|].
  unfold runFuture. simpl. fold runFuture.
  destruct (futureStep f s) as [| |f1 o1] eqn:H1;
    [done | by apply futureStep_no_crash in H1 |].
  destruct (futureStep_inv _ _ _ _ Hinv H1) as (Hinv1 & _).
  specialize (IH _ Hinv1). by destruct (runFuture f1 tr).
Qed.

Lemma FutureWatcher_start env ca cert key f eff :
  FutureWatcher env ca cert key = inl (f, eff) →
  futureInv f ∧ finishedN f = 0 ∧ (pc f = AtSend → eagerOk env = true)
  ∧ count isResSend eff = 0 ∧ count isResClose eff = 0.
Proof.
  destruct env as [re fe dk da]. unfold eagerOk, futureInv, finishedN. simpl.
  unfold FutureWatcher, NewFileReloader, newFsWatcher, fswatcher_New. simpl.
  intros H. destruct re, fe, dk, da; simpl in H; by simplify_eq.
Qed.

(** X8: whatever the disk holds and whatever happens to the Watcher, the
    goroutine of [FutureWatcher] never panics; it sends at most one Watcher
    on the result channel and closes the channel at most once, never before
    the send; and it sends only if both eager reloads succeeded or [ready] has
    been closed. *)
Theorem future_sends_at_most_once env ca cert key f eff tr :
  FutureWatcher env ca cert key = inl (f, eff) →
  (∀ msg, runFuture f tr ≠ Crash msg)
  ∧ ∀ f' out,
      runFuture f tr = Next f' out →
      (count isResSend (eff ++ out) ≤ count isResClose (eff ++ out))%nat
      ∧ (count isResClose (eff ++ out) ≤ 1)%nat
      ∧ (count isResClose (eff ++ out) = 1 ↔ res f' = Closed)
      ∧ (count isResSend (eff ++ out) = 1 →
         eagerOk env = true ∨ ready (loop f') = Closed).
Proof.
  intros (Hinv & Hfin & Hsend & He1 & He2)%FutureWatcher_start.
  split; [intros msg; by apply runFuture_no_crash|].
  intros f' out H.
  destruct (runFuture_counts (eagerOk env = true) f tr f' out Hinv)
    as (Hf & Hle & Hs); [by left; auto | done |].
  destruct (runFuture_inv _ _ _ _ Hinv H) as ([_ Hres] & _).
  rewrite !count_app, He1, He2. simpl. unfold finishedN in *.
  rewrite Hres. split_and!.
  - done.
  - destruct (pc f'); lia.
  - destruct (pc f'); split; (lia || done).
  - intros H1. apply Hs. lia.
Qed.

Lemma future_sends_at_most_once_witness :
  ∃ f eff f' out,
    FutureWatcher demoEnvNoCA ["ca.crt"] "tls.crt" "tls.key" = inl (f, eff)
    ∧ runFuture f [WatcherStep (Select (FsEvent "ca.crt" Create));
                   WatcherStep (Select (CATimer (Loaded demoPool)));
                   SelectReady; Receive; WatcherStep CallStop]
      = Next f' out
    ∧ count isResSend (eff ++ out) = 1
    ∧ count isResClose (eff ++ out) = 1
    ∧ ready (loop f') = Closed.
Proof.
  destruct (FutureWatcher demoEnvNoCA ["ca.crt"] "tls.crt" "tls.key")
    as [[f eff]|err] eqn:HF; [|by vm_compute in HF].
  destruct (runFuture f [WatcherStep (Select (FsEvent "ca.crt" Create));
                         WatcherStep (Select (CATimer (Loaded demoPool)));
                         SelectReady; Receive; WatcherStep CallStop])
    as [| |f' out] eqn:Hrun;
    [vm_compute in HF; simplify_eq; by vm_compute in Hrun ..|].
  exists f, eff, f', out.
  destruct (future_sends_at_most_once _ _ _ _ _ _
              [WatcherStep (Select (FsEvent "ca.crt" Create));
               WatcherStep (Select (CATimer (Loaded demoPool)));
               SelectReady; Receive; WatcherStep CallStop] HF)
    as (_ & Hall).
  destruct (Hall _ _ Hrun) as (_ & _ & Hclose & Hsend).
  assert (count isResSend (eff ++ out) = 1 ∧ res f' = Closed) as [Hn Hres].
  { vm_compute in HF. simplify_eq. vm_compute in Hrun. by simplify_eq. }
  split_and!; [done | done | done | by apply Hclose |].
  by destruct (Hsend Hn).
Defined.

(** ** Becoming ready after a partial load *)

Lemma runFuture_watcher f tr l out :
  run (loop f) tr = Next l out →
  runFuture f (WatcherStep <$> tr) = Next (withLoop l f) out.
Proof.
  revert f out. induction tr as [|s tr IH]; intros f out H.
  - unfold run in H. simpl in H. simplify_eq. by destruct f.
  - unfold run in H.
    apply runWith_cons_inv in H as (l1 & o1 & o2 & H1 & H2 & ->).
    rewrite fmap_cons.
    change (runFuture f (WatcherStep s :: (WatcherStep <$> tr)))
      with (match futureStep f (WatcherStep s) with
            | Next f1 o => emit o (runFuture f1 (WatcherStep <$> tr))
            | other => other
            end).
    cbn [futureStep]. rewrite H1, (IH (withLoop l1 f) o2 H2). by destruct f.
Qed.

Lemma step_no_send_run l tr l' out :
  run l tr = Next l' out → count isResSend out = 0 ∧ count isResClose out = 0.
Proof.
  revert l out. induction tr as [|s tr IH]; intros l out H.
  - unfold run in H. simpl in H. by simplify_eq.
  - unfold run in H.
    apply runWith_cons_inv in H as (l1 & o1 & o2 & H1 & H2 & ->).
    destruct (step_no_send _ _ _ _ H1) as [? ?], (IH _ _ H2) as [? ?].
    rewrite !count_app. lia.
Qed.

Lemma missing_ca_reloaded l path op pool :
  consistent l → ready l = Open → running l = true → caReload l = None →
  handledAs RoleCA l path → isLoaded (keypair (storeOf l)) = true →
  ∃ l' out,
    run l [Select (FsEvent path op); Select (CATimer (Loaded pool))]
    = Next l' out
    ∧ ready l' = Closed ∧ Ready (storeOf l') = true
    ∧ count (isReload RoleKeypair) out = 0
    ∧ caCertPool (storeOf l') = Some pool
    ∧ keypair (storeOf l') = keypair (storeOf l).
Proof.
  intros Hc Hrd Hrun Hcr [Hk Hca] Hkp.
  destruct l as [[rl fw st] o rd km cm kr cr rn].
  unfold consistent, storeOf in *. simpl in *. subst.
  unfold run. simpl. unfold iteration. simpl.
  rewrite (bool_decide_eq_false_2 _ Hk), (bool_decide_eq_true_2 _ Hca). simpl.
  unfold iteration. simpl.
  assert (Ready (setCA pool rl) = true) as HR
    by (unfold Ready; simpl; by rewrite Hkp, !orb_true_r).
  rewrite HR. simpl. eexists _, _. split; [reflexivity|]. by simpl.
Qed.

Lemma missing_keypair_reloaded l path op kp :
  consistent l → ready l = Open → running l = true → keypairReload l = None →
  handledAs RoleKeypair l path → isLoaded (caCertPool (storeOf l)) = true →
  ∃ l' out,
    run l [Select (FsEvent path op); Select (KeypairTimer (Loaded kp))]
    = Next l' out
    ∧ ready l' = Closed ∧ Ready (storeOf l') = true
    ∧ count (isReload RoleCA) out = 0
    ∧ keypair (storeOf l') = Some kp
    ∧ caCertPool (storeOf l') = caCertPool (storeOf l).
Proof.
  intros Hc Hrd Hrun Hkr Hk Hca.
  destruct l as [[rl fw st] o rd km cm kr cr rn].
  unfold consistent, storeOf in *. simpl in *. subst.
  unfold run. simpl. unfold iteration. simpl.
  rewrite (bool_decide_eq_true_2 _ Hk). simpl.
  unfold iteration. simpl.
  assert (Ready (setKeypair kp rl) = true) as HR
    by (unfold Ready; simpl; by rewrite Hca, !orb_true_r).
  rewrite HR. simpl. eexists _, _. split; [reflexivity|]. by simpl.
Qed.

Lemma deliver_after_ready f l out :
  pc f = AtWait → res f = Open → ready l = Closed →
  run (loop f) [] = Next (loop f) [] →
  ∀ tr, run (loop f) tr = Next l out →
  ∃ f',
    runFuture f ((WatcherStep <$> tr) ++ [SelectReady; Receive])
    = Next f' (out ++ [Log Debug "TLS configuration ready" ""; ResSend; ResClose])
    ∧ loop f' = l ∧ res f' = Closed ∧ pc f' = Finished.
Proof.
  intros Hpc Hres Hrd _ tr Hrun. unfold runFuture. rewrite runWith_app.
  fold runFuture. rewrite (runFuture_watcher f tr l out Hrun).
  destruct f as [l0 p r]. simpl in *. subst.
  unfold runFuture, withLoop, closeRes. simpl. rewrite Hrd. simpl.
  eexists. split; [reflexivity|]. done.
Qed.

Lemma FutureWatcher_half_ready env ca cert key f eff :
  FutureWatcher env ca cert key = inl (f, eff) → eagerOk env = false →
  pc f = AtWait ∧ res f = Open
  ∧ (∀ kp, diskKeypair env = Loaded kp → keypair (storeOf (loop f)) = Some kp)
  ∧ (∀ pool, diskCA env = Loaded pool →
             caCertPool (storeOf (loop f)) = Some pool).
Proof.
  destruct env as [re fe dk da]. unfold eagerOk. simpl.
  unfold FutureWatcher, NewFileReloader, newFsWatcher, fswatcher_New. simpl.
  intros H Heager. destruct re, fe, dk, da; simpl in H; simplify_eq;
    split_and!; try done; by intros ? [= ->].
Qed.

(** X9: a Watcher from [FutureWatcher] whose eager reloads loaded one role
    only becomes ready with one handled event for the other role. With the
    keypair loaded and the CA not, a notification for a CA file followed by a
    successful CA reload closes [ready], and the goroutine then delivers the
    Watcher, ready, and closes the result channel, with no keypair reload by
    the loop; and the same with the roles exchanged. *)
Theorem half_ready_needs_one_event env ca cert key f eff path op :
  FutureWatcher env ca cert key = inl (f, eff) →
  (∀ kp err pool,
     diskKeypair env = Loaded kp → diskCA env = LoadFailed err →
     path ∈ ca → path ≠ cert → path ≠ key →
     ∃ f' out,
       runFuture f
         ((WatcherStep <$> [Select (FsEvent path op);
                            Select (CATimer (Loaded pool))])
          ++ [SelectReady; Receive])
       = Next f' out
       ∧ count isResSend out = 1 ∧ res f' = Closed
       ∧ count (isReload RoleKeypair) out = 0
       ∧ Ready (storeOf (loop f')) = true
       ∧ keypair (storeOf (loop f')) = Some kp
       ∧ caCertPool (storeOf (loop f')) = Some pool)
  ∧ (∀ err pool kp,
       diskKeypair env = LoadFailed err → diskCA env = Loaded pool →
       path ≠ "" → path = cert ∨ path = key →
       ∃ f' out,
         runFuture f
           ((WatcherStep <$> [Select (FsEvent path op);
                              Select (KeypairTimer (Loaded kp))])
            ++ [SelectReady; Receive])
         = Next f' out
         ∧ count isResSend out = 1 ∧ res f' = Closed
         ∧ count (isReload RoleCA) out = 0
         ∧ Ready (storeOf (loop f')) = true
         ∧ keypair (storeOf (loop f')) = Some kp
         ∧ caCertPool (storeOf (loop f')) = Some pool).
Proof.
  intros HF.
  pose proof (builtBy_Watch (loop f) env ca cert key
                (or_intror (ex_intro _ f (ex_intro _ eff (conj HF eq_refl)))))
    as (HW & _ & Hca & Hcert & Hkey & _).
  assert (consistent (loop f)) as Hcons by (rewrite HW; apply Watch_consistent).
  assert (keypairMap (loop f) = buildKeypairMap (storeOf (loop f))) as Hkm
    by (by rewrite HW).
  assert (caMap (loop f) = buildCaMap (storeOf (loop f))) as Hcm
    by (by rewrite HW).
  assert (ready (loop f) = Open ∧ running (loop f) = true
          ∧ keypairReload (loop f) = None ∧ caReload (loop f) = None)
    as (Hrd & Hrun & Hkr & Hcr) by (by rewrite HW).
  split.
  - intros kp err pool Hdk Hda Hin Hnc Hnk.
    destruct (FutureWatcher_half_ready _ _ _ _ _ _ HF)
      as (Hpc & Hres & Hkp & _);
      [by unfold eagerOk; rewrite Hdk, Hda|]. specialize (Hkp _ Hdk).
    destruct (missing_ca_reloaded (loop f) path op pool)
      as (l' & out & Hr & Hcl & HR & Hn & Hpool & Hkp'); try done.
    { simpl. rewrite Hkm, Hcm, elem_of_buildKeypairMap, elem_of_buildCaMap,
        Hca, Hcert, Hkey. intuition congruence. }
    { by rewrite Hkp. }
    destruct (deliver_after_ready f l' out Hpc Hres Hcl eq_refl _ Hr)
      as (f' & Hd & Hl & Hres' & _).
    eexists f', _. split; [exact Hd|]. rewrite !count_app, Hl, Hn.
    destruct (step_no_send_run (loop f) _ l' out Hr) as [-> _].
    split_and!; try done. congruence.
  - intros err pool kp Hdk Hda Hne Hin.
    destruct (FutureWatcher_half_ready _ _ _ _ _ _ HF)
      as (Hpc & Hres & _ & Hpool);
      [by unfold eagerOk; rewrite Hdk|]. specialize (Hpool _ Hda).
    destruct (missing_keypair_reloaded (loop f) path op kp)
      as (l' & out & Hr & Hcl & HR & Hn & Hkp & Hpool'); try done.
    { simpl. rewrite Hkm, elem_of_buildKeypairMap, Hcert, Hkey.
      intuition congruence. }
    { by rewrite Hpool. }
    destruct (deliver_after_ready f l' out Hpc Hres Hcl eq_refl _ Hr)
      as (f' & Hd & Hl & Hres' & _).
    eexists f', _. split; [exact Hd|]. rewrite !count_app, Hl, Hn.
    destruct (step_no_send_run (loop f) _ l' out Hr) as [-> _].
    split_and!; try done. congruence.
Qed.

Lemma half_ready_needs_one_event_witness :
  ∃ f eff f' out,
    FutureWatcher demoEnvNoCA ["ca.crt"] "tls.crt" "tls.key" = inl (f, eff)
    ∧ runFuture f
        ((WatcherStep <$> [Select (FsEvent "ca.crt" Create);
                           Select (CATimer (Loaded demoPool))])
         ++ [SelectReady; Receive])
      = Next f' out
    ∧ count isResSend out = 1
    ∧ Ready (storeOf (loop f')) = true.
Proof.
  destruct (FutureWatcher demoEnvNoCA ["ca.crt"] "tls.crt" "tls.key")
    as [[f eff]|err] eqn:HF; [|by vm_compute in HF].
  destruct (half_ready_needs_one_event _ _ _ _ _ _ "ca.crt" Create HF)
    as [Hca _].
  destruct (Hca demoKeypair "open ca.crt: no such file or directory" demoPool)
    as (f' & out & Hrun & Hn & _ & _ & HR & _);
    [reflexivity | reflexivity | compute_done | discriminate | discriminate |].
  by exists f, eff, f', out.
Defined.

(** ** What FutureWatcher needs *)

(** X10: [FutureWatcher] does not need the files: it returns its channel
    whenever the reloader constructor and [fswatcher.New] succeed, whatever
    the disk holds, with the loop started, the stop and result channels open
    and the event source not released; and it returns an error exactly when
    one of the two fails, the reloader constructor's first. *)
Theorem FutureWatcher_tolerates_missing_files env ca cert key :
  ((∃ f eff, FutureWatcher env ca cert key = inl (f, eff))
   ↔ reloaderErr env = None ∧ fswatcherErr env = None)
  ∧ (∀ err,
       FutureWatcher env ca cert key = inr err
       ↔ reloaderErr env = Some err
         ∨ (reloaderErr env = None ∧ fswatcherErr env = Some err))
  ∧ (∀ f eff,
       FutureWatcher env ca cert key = inl (f, eff) →
       loop f = Watch (watcher (loop f))
       ∧ stop (watcher (loop f)) = Open ∧ res f = Open
       ∧ released (fswatcher (watcher (loop f))) = false
       ∧ (pc f = AtSend ↔ eagerOk env = true)
       ∧ (pc f = AtWait ↔ eagerOk env = false)
       ∧ actions eff = [Reload RoleKeypair; Reload RoleCA]).
Proof.
  destruct env as [re fe dk da]. unfold eagerOk. simpl.
  unfold FutureWatcher, NewFileReloader, newFsWatcher, fswatcher_New. simpl.
  split_and!.
  - destruct re, fe, dk, da; simpl; split;
      try (intros (? & ? & ?); done); try (intros [? ?]; done);
      intros _; by eexists _, _.
  - intros err. destruct re, fe, dk, da; simpl; split; intros H;
      simplify_eq; try done; auto; destruct H as [?|[? ?]]; by simplify_eq.
  - intros f eff H. destruct re, fe, dk, da; simpl in H; simplify_eq; simpl;
      split_and!; done.
Qed.

Lemma FutureWatcher_tolerates_missing_files_witness :
  (∃ f eff, FutureWatcher demoEnvNoCA ["ca.crt"] "tls.crt" "tls.key" = inl (f, eff))
  ∧ (∃ err, NewWatcher demoEnvNoCA ["ca.crt"] "tls.crt" "tls.key" = inr err).
Proof.
  destruct (FutureWatcher_tolerates_missing_files
              demoEnvNoCA ["ca.crt"] "tls.crt" "tls.key") as ([_ Hok] & _).
  split; [by apply Hok | by eexists].
Defined.

(** ** Stop, once stopped *)

Lemma stopSched_closed (pcs : list StopPc) tid :
  Forall (λ pc, pc ≠ AtClose) pcs →
  match stopSched (Closed, pcs) tid with
  | Next (c, pcs') out =>
      c = Closed ∧ out = [] ∧ Forall (λ pc, pc ≠ AtClose) pcs'
  | Crash _ => False
  | Blocked => True
  end.
Proof.
  intros Hall. unfold stopSched. simpl.
  destruct (pcs !! tid) as [pc|] eqn:Hpc; [|done].
  assert (pc ≠ AtClose) as Hne
    by (eapply Forall_lookup_1 in Hall; [exact Hall | exact Hpc]).
  destruct pc; simpl; [|done|done]. split_and!; [done | done |].
  apply Forall_insert; done.
Qed.

(** X11: once the stop channel is closed, calling [Stop] is safe from any
    number of goroutines at once: whatever the interleaving of their moves,
    none of them panics and none closes the channel again; each finds the
    channel closed at its [select] and returns. *)
Theorem stop_after_stop_is_safe (pcs : list StopPc) (sched : list nat) :
  Forall (λ pc, pc ≠ AtClose) pcs →
  (∀ msg, runWith stopSched (Closed, pcs) sched ≠ Crash msg)
  ∧ ∀ c pcs' out,
      runWith stopSched (Closed, pcs) sched = Next (c, pcs') out →
      c = Closed ∧ out = [] ∧ Forall (λ pc, pc ≠ AtClose) pcs'
      ∧ length pcs' = length pcs.
Proof.
  revert pcs. induction sched as [|tid sched IH]; intros pcs Hall.
  - split; [done|]. intros c pcs' out H. simpl in H. by simplify_eq.
  - pose proof (stopSched_closed pcs tid Hall) as Hstep.
    assert (∀ c pcs1 o1, stopSched (Closed, pcs) tid = Next (c, pcs1) o1 →
                         length pcs1 = length pcs) as Hlen.
    { unfold stopSched. simpl. intros c pcs1 o1 H.
      destruct (pcs !! tid) as [pc|]; [|done].
      destruct (stopStep Closed pc) as [| |[c' pc'] o]; simplify_eq.
      by rewrite length_insert. }
    simpl. destruct (stopSched (Closed, pcs) tid) as [| |[c1 pcs1] o1] eqn:H1;
      [done | done |].
    destruct Hstep as (-> & -> & Hall1). specialize (Hlen _ _ _ eq_refl).
    destruct (IH pcs1 Hall1) as [Hnc Hnext]. split.
    + intros msg. specialize (Hnc msg).
      by destruct (runWith stopSched (Closed, pcs1) sched).
    + intros c pcs' out H.
      destruct (runWith stopSched (Closed, pcs1) sched) as [| |[c2 pcs2] o2] eqn:H2;
        simpl in H; simplify_eq.
      destruct (Hnext _ _ _ eq_refl) as (-> & -> & ? & ?).
      split_and!; try done. congruence.
Qed.

Lemma stop_after_stop_is_safe_witness :
  ∃ c pcs' out,
    runWith stopSched (Closed, [AtSelect; AtSelect; Returned]) [1; 0]
    = Next (c, pcs') out
    ∧ c = Closed ∧ out = [].
Proof.
  destruct (stop_after_stop_is_safe [AtSelect; AtSelect; Returned] [1; 0])
    as [_ Hnext]; [repeat constructor; discriminate|].
  eexists _, _, _. split; [reflexivity|].
  destruct (Hnext _ _ _ eq_refl) as (? & ? & _). done.
Defined.

(** ** Stop while the loop has work *)

(** X12: a call of [Stop] does not pre-empt the loop. Whatever case other
    than the stop case the loop could take before the call, it can still take
    after it, with the same effects and the same resulting state as if the
    call had come second: a timer that is pending when [Stop] is called can
    still fire and reload before the loop returns. *)
Theorem stop_does_not_preempt l c l1 out :
  c ≠ StopSeen → step l (Select c) = Next l1 out →
  ∃ l2 l' closes,
    step l CallStop = Next l2 closes
    ∧ step l2 (Select c) = Next l' out
    ∧ step l1 CallStop = Next l' closes
    ∧ stop (watcher l') = Closed ∧ running l' = true.
Proof.
  intros Hne H. destruct l as [[rl fw st] o rd km cm kr cr rn].
  exists {| watcher := {| reloader := rl; fswatcher := fw; stop := Closed |};
            once := o; ready := rd; keypairMap := km; caMap := cm;
            keypairReload := kr; caReload := cr; running := rn |}.
  destruct c as [path op|[kp|err]|[ca|err]|err|]; [| | | | | |done];
    unfold step, iteration, Stop in *; simpl in *;
    (destruct rn; simpl in *; [|done]).
  - destruct (bool_decide (path ∈ km)), (bool_decide (path ∈ cm)), kr, cr, st;
      simplify_eq; simpl; by eexists _, _.
  - destruct kr; [|done]. simpl in *.
    match type of H with context [Ready ?x] => destruct (Ready x) end;
      unfold markReady in *; destruct o, rd, st; simpl in *; simplify_eq;
      simpl; by eexists _, _.
  - destruct kr; [|done]. destruct st; simplify_eq; simpl; by eexists _, _.
  - destruct cr; [|done]. simpl in *.
    match type of H with context [Ready ?x] => destruct (Ready x) end;
      unfold markReady in *; destruct o, rd, st; simpl in *; simplify_eq;
      simpl; by eexists _, _.
  - destruct cr; [|done]. destruct st; simplify_eq; simpl; by eexists _, _.
  - destruct st; simplify_eq; simpl; by eexists _, _.
Qed.

Lemma stop_does_not_preempt_witness :
  ∃ l out,
    run demoArmed [CallStop; Select (KeypairTimer (Loaded demoKeypair))]
    = Next l out
    ∧ count (isReload RoleKeypair) out = 1 ∧ running l = true.
Proof.
  destruct (step demoArmed (Select (KeypairTimer (Loaded demoKeypair))))
    as [| |l1 o1] eqn:H1; [by vm_compute in H1 | by vm_compute in H1 |].
  destruct (stop_does_not_preempt demoArmed
              (KeypairTimer (Loaded demoKeypair)) l1 o1)
    as (l2 & l' & closes & Hs & Hc & _ & _ & Hrun); [discriminate | done |].
  exists l', (closes ++ o1)%list. rewrite !run_cons, Hs. simpl emit.
  rewrite run_cons, Hc. split; [unfold run; simpl; by rewrite app_nil_r|].
  split; [|done]. vm_compute in Hs. vm_compute in H1. by simplify_eq.
Defined.
